(** * functions.py: a small library of composable mathematical functions

    A shallow embedding of [functions.py]: expression nodes
    ([Polynomial], [Compose], [Sum], [Product], [Power], [Log],
    [Exponential], [Sin], [Cos], [Symbolic]), their [evaluate],
    [derivative], [__str__] and [__call__] methods, Polynomial addition on
    a store of coefficient arrays, and the Newton iterations
    [newton_root] and [newton_extremum]. *)

From Stdlib Require Import ZArith QArith Qabs Qcanon List String Ascii Lia.
From Stdlib Require PrimFloat SpecFloat FloatOps.
From stdpp Require Import base option list strings pretty gmap.

Local Open Scope string_scope.
Local Open Scope list_scope.
Local Open Scope Z_scope.

(** ** Exceptions and results *)

(** The Python exceptions the modelled code can raise.  [FormatFieldError]
    stands for whatever [str.format] does on a replacement field other
    than the two forms the library itself writes. *)
Inductive exn :=
  | TypeError
  | ValueError (msg : string)
  | AttributeError
  | NotImplementedError (msg : string)
  | ZeroDivisionError
  | IndexError
  | FormatFieldError.

Inductive result (A : Type) :=
  | Ok (a : A)
  | Err (e : exn).
Arguments Ok {A} a.
Arguments Err {A} e.

#[global] Instance result_ret : MRet result := @Ok.
#[global] Instance result_bind : MBind result := λ A B k m,
  match m with Ok a => k a | Err e => Err e end.

(** [mapM]: run a fallible function over a list, left to right, stopping at
    the first exception. *)
Fixpoint mapM_result {A B} (k : A → result B) (l : list A) : result (list B) :=
  match l with
  | [] => Ok []
  | a :: l' => b ← k a; bs ← mapM_result k l'; Ok (b :: bs)
  end.

(** ** Numbers

    The code is generic in the number type it is run with (fractions,
    numpy's int64 and float64 scalars, which is what the integers and
    floats written in a Polynomial become).  [Numeric] is that interface:
    the operators and library calls the source applies to numbers. *)
Class Numeric : Type := {
  num : Type;
  of_Z : Z → num;                   (* an int literal or loop index *)
  nadd : num → num → num;           (* a + b *)
  nsub : num → num → num;           (* a - b *)
  nmul : num → num → num;           (* a * b *)
  ndiv : num → num → result num;    (* a / b *)
  npow : num → num → result num;    (* a ** b *)
  nabs : num → num;                 (* abs(a) *)
  ngtb : num → num → bool;          (* a > b *)
  neqb : num → num → bool;          (* a == b *)
  nindex : num → option Z;          (* operator.index(a), where a is an int *)
  nlog : num → result num;          (* np.log *)
  nexp : num → result num;          (* np.exp *)
  nsin : num → result num;          (* np.sin *)
  ncos : num → result num;          (* np.cos *)
  tol_default : num;                (* the literal 1e-8 *)
  show_num : num → string;          (* str(a) *)
  show_array : list num → string;   (* str(np.array(l)) *)
  show_list : list num → string     (* str(l) for a plain list *)
}.

Infix "⊕" := nadd (at level 50, left associativity).
Infix "⊖" := nsub (at level 50, left associativity).
Infix "⊗" := nmul (at level 40, left associativity).

(** Iterated multiplication, [x] to the [k]. *)
Fixpoint pow_nat `{Numeric} (x : num) (k : nat) : num :=
  match k with
  | O => of_Z 1
  | S k' => x ⊗ pow_nat x k'
  end.

(** The laws of exact arithmetic (a commutative ring with a compatible
    [**] on natural exponents); theorems that need them say so. *)
Class NumericLaws (N : Numeric) : Prop := {
  nadd_comm : ∀ a b : num, a ⊕ b = b ⊕ a;
  nadd_assoc : ∀ a b c : num, a ⊕ (b ⊕ c) = (a ⊕ b) ⊕ c;
  nadd_0_l : ∀ a : num, of_Z 0 ⊕ a = a;
  nmul_comm : ∀ a b : num, a ⊗ b = b ⊗ a;
  nmul_assoc : ∀ a b c : num, a ⊗ (b ⊗ c) = (a ⊗ b) ⊗ c;
  nmul_1_l : ∀ a : num, of_Z 1 ⊗ a = a;
  nmul_0_l : ∀ a : num, of_Z 0 ⊗ a = of_Z 0;
  nmul_add_distr_l : ∀ a b c : num, a ⊗ (b ⊕ c) = (a ⊗ b) ⊕ (a ⊗ c);
  nsub_diag : ∀ a : num, a ⊖ a = of_Z 0;
  nadd_sub_assoc : ∀ a b c : num, (a ⊕ b) ⊖ c = a ⊕ (b ⊖ c);
  of_Z_succ : ∀ z : Z, 0 ≤ z → of_Z (z + 1) = of_Z z ⊕ of_Z 1;
  npow_nat : ∀ (x : num) (k : nat), npow x (of_Z (Z.of_nat k)) = Ok (pow_nat x k)
}.

(** ** Python objects

    One type for every value the code handles: numbers, strings, [None],
    one-dimensional numpy arrays, plain lists, and the expression nodes
    (the subclasses of [AbstractFunction]).  [Polynomial] carries its
    coefficient array, highest degree first; [Affine], [Scale] and
    [Constant] are Polynomials. *)
Section Objects.
Context `{N : Numeric}.

Inductive obj :=
  | ONum (v : num)
  | OStr (s : string)
  | ONone
  | OArr (a : list num)
  | OList (l : list num)
  | Polynomial (coeff : list num)
  | Compose (f g : obj)
  | Sum (f g : obj)
  | Product (f g : obj)
  | Power (n : num)
  | Log
  | Exponential
  | Sin
  | Cos
  | Symbolic (name : string).

Definition Affine (a b : num) : obj := Polynomial [a; b].
Definition Scale (a : num) : obj := Polynomial [a; of_Z 0].
Definition Constant (c : num) : obj := Polynomial [c].

(** [isinstance(x, AbstractFunction)] *)
Definition is_node (x : obj) : bool :=
  match x with
  | Polynomial _ | Compose _ _ | Sum _ _ | Product _ _ | Power _
  | Log | Exponential | Sin | Cos | Symbolic _ => true
  | _ => false
  end.

(** [isinstance(x, Symbolic)] *)
Definition is_symbolic (x : obj) : bool :=
  match x with Symbolic _ => true | _ => false end.

(** [isinstance(x, str)] *)
Definition is_str (x : obj) : bool :=
  match x with OStr _ => true | _ => false end.

(** [isinstance(x, numbers.Number)] *)
Definition is_number (x : obj) : bool :=
  match x with ONum _ => true | _ => false end.

(** A number or a string. *)
Definition is_scalar (x : obj) : bool := is_number x || is_str x.

(** [isinstance(x, np.ndarray)] *)
Definition is_ndarray (x : obj) : bool :=
  match x with OArr _ => true | _ => false end.

(** ** Polynomial: degree and scalar evaluation *)

(** [Polynomial.degree]: [len(self.coeff) - 1]. *)
Definition degree (coeff : list num) : Z := Z.of_nat (length coeff) - 1.

(** [enumerate(l)] *)
Definition enumerate {A} (l : list A) : list (nat * A) :=
  combine (seq 0 (length l)) l.

(** The scalar branch of [Polynomial.evaluate]:
<<
    ret = 0
    for k, c in enumerate(reversed(self.coeff)):
        ret = ret + c * x**k
    return ret
>> *)
Definition poly_eval_step (x : num) (acc : result num) (kc : nat * num) : result num :=
  ret ← acc;
  p ← npow x (of_Z (Z.of_nat kc.1));
  Ok (ret ⊕ kc.2 ⊗ p).

Definition poly_eval_scalar (coeff : list num) (x : num) : result num :=
  fold_left (poly_eval_step x) (enumerate (rev coeff)) (Ok (of_Z 0)).

(** The array branch of [Polynomial.evaluate]:
    [np.vander(x, len(self.coeff)).dot(self.coeff)].  [np.vander(x, n)] is
    the matrix whose row [i] is [x[i]**(n-1), ..., x[i]**1, x[i]**0], built
    by repeated multiplication; [M.dot(c)] is the matrix-vector product. *)
Definition vander (x : list num) (n : nat) : list (list num) :=
  map (λ xi, map (λ j, pow_nat xi (n - 1 - j)) (seq 0 n)) x.

Definition dot (M : list (list num)) (c : list num) : list num :=
  map (λ row, fold_left nadd (zip_with nmul row c) (of_Z 0)) M.

Definition poly_eval_vector (coeff : list num) (x : list num) : list num :=
  dot (vander x (length coeff)) coeff.

(** ** Rendering: [__str__] and [str.format] *)

(** [s[-3:]] and [s[:-3]] *)
Definition last3 (s : string) : string :=
  substring (String.length s - 3) 3 s.
Definition drop_last3 (s : string) : string :=
  substring 0 (String.length s - 3) s.

(** One round of the loop of [Polynomial.__str__]; [s] is the string built
    so far, [ic] the pair from [enumerate(self.coeff)].  The inner
    [format] calls are carried out: [{{0}}] has become [{0}]. *)
Definition poly_str_step (deg : Z) (s : string) (ic : nat * num) : string :=
  let i := Z.of_nat ic.1 in
  let c := ic.2 in
  if i <? deg - 1 then
    if neqb c (of_Z 0) then s
    else if neqb c (of_Z 1) then s +:+ "({0})^" +:+ pretty (deg - i) +:+ " + "
    else s +:+ show_num c +:+ "({0})^" +:+ pretty (deg - i) +:+ " + "
  else if i =? deg - 1 then
    if neqb c (of_Z 0) then s
    else if neqb c (of_Z 1) then s +:+ "{0} + "
    else s +:+ show_num c +:+ "({0}) + "
  else
    if neqb c (of_Z 0) && (0 <? String.length s)%nat then s
    else s +:+ show_num c.

(** [Polynomial.__str__] *)
Definition poly_str (coeff : list num) : string :=
  let s := fold_left (poly_str_step (degree coeff)) (enumerate coeff) "" in
  if String.eqb (last3 s) " + " then drop_last3 s else s.

(** [str(x)]: [__str__] of each node class, and the printed form of the
    other objects. *)
Fixpoint py_str (x : obj) : string :=
  match x with
  | ONum v => show_num v
  | OStr s => s
  | ONone => "None"
  | OArr a => show_array a
  | OList l => show_list l
  | Polynomial coeff => poly_str coeff
  | Compose f g => py_str f +:+ "(" +:+ py_str g +:+ ")"
  | Sum f g => py_str f +:+ " + " +:+ py_str g
  | Product f g => py_str f +:+ " * " +:+ py_str g
  | Power n => "{0} ^ " +:+ show_num n
  | Log => "log({{0}})"
  | Exponential => "e ^ {{0}}"
  | Sin => "sin({{0}})"
  | Cos => "cos({{0}})"
  | Symbolic name => name +:+ "({0})"
  end.

(** [template.format(arg)] with one positional argument.  [{{] and [}}]
    are escapes, [{0}] and [{}] are replaced by the argument; Python
    refuses a template that mixes the two field forms, a second [{}], and an
    unmatched brace. *)
Inductive numbering := Unset | Automatic | Manual.

Fixpoint format_go (st : numbering) (t : string) (arg : string) : result string :=
  match t with
  | EmptyString => Ok EmptyString
  | String "{" (String "{" t') => r ← format_go st t' arg; Ok (String "{" r)
  | String "}" (String "}" t') => r ← format_go st t' arg; Ok (String "}" r)
  | String "}" _ => Err (ValueError "Single '}' encountered in format string")
  | String "{" EmptyString => Err (ValueError "Single '{' encountered in format string")
  | String "{" (String "}" t') =>
      match st with
      | Unset => r ← format_go Automatic t' arg; Ok (arg +:+ r)
      | Automatic => Err IndexError
      | Manual => Err (ValueError "cannot switch from manual field specification to automatic field numbering")
      end
  | String "{" (String "0" (String "}" t')) =>
      match st with
      | Automatic => Err (ValueError "cannot switch from automatic field numbering to manual field specification")
      | _ => r ← format_go Manual t' arg; Ok (arg +:+ r)
      end
  | String "{" _ => Err FormatFieldError
  | String c t' => r ← format_go st t' arg; Ok (String c r)
  end.

Definition format (t arg : string) : result string := format_go Unset t arg.

(** ** Operators on objects *)

Definition fmap_result {A B} (k : A → B) (m : result A) : result B :=
  a ← m; Ok (k a).

Definition broadcast_error : exn :=
  ValueError "operands could not be broadcast together".

(** numpy's elementwise binary operator on two one-dimensional arrays:
    equal lengths, or one of them of length one. *)
Definition broadcast2 (op : num → num → num) (a b : list num) : result (list num) :=
  if (length a =? length b)%nat then Ok (zip_with op a b)
  else match a, b with
       | [x], _ => Ok (map (op x) b)
       | _, [y] => Ok (map (λ x, op x y) a)
       | _, _ => Err broadcast_error
       end.

(** [coeff[-k:] += v], as the new contents of [coeff].  The slice starts
    at [len - k], not below 0; for [k = 0] the index [-0] is 0 and the slice
    is the whole array.  The in-place sum needs [v] of the length of the
    slice, or of length one. *)
Definition slice_start (len : nat) (k : Z) : nat :=
  if k =? 0 then O else Z.to_nat (Z.max 0 (Z.of_nat len - k)).

Definition slice_iadd (coeff : list num) (k : Z) (v : list num) : result (list num) :=
  let start := slice_start (length coeff) k in
  let view := drop start coeff in
  if (length v =? length view)%nat then Ok (take start coeff ++ zip_with nadd view v)
  else match v with
       | [y] => Ok (take start coeff ++ map (λ x, x ⊕ y) view)
       | _ => Err broadcast_error
       end.

(** The coefficients of the Polynomial that [Polynomial.__add__] returns
    for two Polynomials.  (What the call does to the operands' arrays is
    modelled on a store, in [PolyStore] below.) *)
Definition poly_add_coeffs (self other : list num) : result (list num) :=
  if degree self >? degree other
  then slice_iadd self (degree other + 1) other
  else slice_iadd other (degree self + 1) self.

(** [np.polymul(a, b)]: both arguments lose their leading zeros (an
    all-zero argument becomes [[0]]) and are convolved. *)
Fixpoint trim_zeros (a : list num) : list num :=
  match a with
  | c :: a' => if neqb c (of_Z 0) then trim_zeros a' else a
  | [] => []
  end.

Definition poly1d (a : list num) : list num :=
  match trim_zeros a with [] => [of_Z 0] | t => t end.

Fixpoint add_aligned_left (a b : list num) : list num :=
  match a, b with
  | x :: a', y :: b' => (x ⊕ y) :: add_aligned_left a' b'
  | [], b => b
  | a, [] => a
  end.

Fixpoint convolve (a b : list num) : list num :=
  match a with
  | [] => []
  | [x] => map (nmul x) b
  | x :: a' => add_aligned_left (map (nmul x) b ++ map (λ _, of_Z 0) a')
                                (of_Z 0 :: convolve a' b)
  end.

Definition polymul (a b : list num) : list num :=
  convolve (poly1d a) (poly1d b).

(** [s * k] for a string: [k] copies. *)
Fixpoint str_repeat (s : string) (k : nat) : string :=
  match k with O => "" | S k' => s +:+ str_repeat s k' end.

(** [a + b].  A node on the left answers through [__add__]: two Polynomials
    add their coefficients, any other pair builds a [Sum]. *)
Definition py_add (a b : obj) : result obj :=
  match a, b with
  | Polynomial ca, Polynomial cb => fmap_result Polynomial (poly_add_coeffs ca cb)
  | ONum x, ONum y => Ok (ONum (x ⊕ y))
  | ONum x, OArr v => Ok (OArr (map (nadd x) v))
  | OArr u, ONum y => Ok (OArr (map (λ x, x ⊕ y) u))
  | OArr u, OArr v | OArr u, OList v | OList u, OArr v =>
      fmap_result OArr (broadcast2 nadd u v)
  | OStr s, OStr t => Ok (OStr (s +:+ t))
  | OList u, OList v => Ok (OList (u ++ v))
  | _, _ => if is_node a then Ok (Sum a b) else Err TypeError
  end.

(** [a * b].  A node on the left answers through [__mul__]. *)
Definition py_mul (a b : obj) : result obj :=
  match a, b with
  | Polynomial ca, Polynomial cb => Ok (Polynomial (polymul ca cb))
  | ONum x, ONum y => Ok (ONum (x ⊗ y))
  | ONum x, OArr v => Ok (OArr (map (nmul x) v))
  | OArr u, ONum y => Ok (OArr (map (λ x, x ⊗ y) u))
  | OArr u, OArr v | OArr u, OList v | OList u, OArr v =>
      fmap_result OArr (broadcast2 nmul u v)
  | OStr s, ONum k | ONum k, OStr s =>
      match nindex k with
      | Some z => Ok (OStr (str_repeat s (Z.to_nat z)))
      | None => Err TypeError
      end
  | OList u, ONum k | ONum k, OList u =>
      match nindex k with
      | Some z => Ok (OList (concat (replicate (Z.to_nat z) u)))
      | None => Err TypeError
      end
  | _, _ => if is_node a then Ok (Product a b) else Err TypeError
  end.

(** [x ** n] with [n] a number.  A node answers through [__pow__], which
    is [Power(n)(self)], the composition. *)
Definition py_pow (x : obj) (n : num) : result obj :=
  match x with
  | ONum v => fmap_result ONum (npow v n)
  | OArr a => fmap_result OArr (mapM_result (λ v, npow v n) a)
  | _ => if is_node x then Ok (Compose (Power n) x) else Err TypeError
  end.

(** A numpy elementwise function ([np.log], [np.exp], [np.sin], [np.cos]). *)
Definition np_ufunc (u : num → result num) (x : obj) : result obj :=
  match x with
  | ONum v => fmap_result ONum (u v)
  | OArr a | OList a => fmap_result OArr (mapM_result u a)
  | _ => Err TypeError
  end.

(** ** [__call__] and [evaluate] *)

(** [self(x)], given [ev] for [self.evaluate].  [Symbolic] overrides
    [__call__]; every other node inherits [AbstractFunction.__call__]; an
    object that is no node cannot be called. *)
Definition call_with (ev : obj → result obj) (self x : obj) : result obj :=
  match self with
  | Symbolic name => Ok (OStr (name +:+ "(" +:+ py_str x +:+ ")"))
  | _ =>
    if is_node self then
      if is_node x then Ok (Compose self x)
      else match x with
           | OStr s => fmap_result OStr (format (py_str self) s)
           | _ => ev x
           end
    else Err TypeError
  end.

(** [self.evaluate(x)] *)
Fixpoint evaluate (self x : obj) {struct self} : result obj :=
  match self with
  | Polynomial coeff =>
      match x with
      | ONum v => fmap_result ONum (poly_eval_scalar coeff v)
      | OArr a => Ok (OArr (poly_eval_vector coeff a))
      | _ => Ok ONone
      end
  | Compose f g =>
      gx ← call_with (evaluate g) g x;
      call_with (evaluate f) f gx
  | Sum f g =>
      a ← call_with (evaluate f) f x;
      b ← call_with (evaluate g) g x;
      py_add a b
  | Product f g =>
      a ← call_with (evaluate f) f x;
      b ← call_with (evaluate g) g x;
      py_mul a b
  | Power n => py_pow x n
  | Log => np_ufunc nlog x
  | Exponential => np_ufunc nexp x
  | Sin => np_ufunc nsin x
  | Cos => np_ufunc ncos x
  | Symbolic _ => Err (NotImplementedError "evaluate")
  | _ => Err AttributeError
  end.

(** [self(x)] *)
Definition call (self x : obj) : result obj := call_with (evaluate self) self x.

(** The other operators of [AbstractFunction]: [__neg__] is
    [Scale(-1)(self)], [__pow__] is [Power(n)(self)] and [__truediv__] is
    [self * other**-1]. *)
Definition node_neg (self : obj) : result obj := call (Scale (of_Z (-1))) self.

Definition node_pow (self : obj) (n : num) : result obj := call (Power n) self.

Definition node_truediv (self other : obj) : result obj :=
  inv ← py_pow other (of_Z (-1));
  py_mul self inv.

(** ** [derivative] *)

(** [[n+1 for n in reversed(range(deg))]] *)
Definition degree_weights (deg : Z) : list num :=
  map (λ n, of_Z (Z.of_nat n + 1)) (rev (seq 0 (Z.to_nat deg))).

(** [Polynomial.derivative], on the coefficient array. *)
Definition poly_derivative (coeff : list num) : result (list num) :=
  if (length coeff =? 1)%nat then Ok [of_Z 0]
  else broadcast2 nmul (removelast coeff) (degree_weights (degree coeff)).

(** [self.derivative()] *)
Fixpoint derivative (self : obj) : result obj :=
  match self with
  | Polynomial coeff => fmap_result Polynomial (poly_derivative coeff)
  | Compose f g =>
      f' ← derivative f;
      fg ← call f' g;
      g' ← derivative g;
      Ok (Product fg g')
  | Sum f g =>
      f' ← derivative f;
      g' ← derivative g;
      Ok (Sum f' g')
  | Product f g =>
      f' ← derivative f;
      g' ← derivative g;
      Ok (Sum (Product f' g) (Product f g'))
  | Power n => Ok (Product (Constant n) (Power (n ⊖ of_Z 1)))
  | Log => Ok (Power (of_Z (-1)))
  | Exponential => Ok Exponential
  | Sin => Ok Cos
  | Cos => Ok (Product (Constant (of_Z (-1))) Sin)
  | Symbolic name => Ok (Symbolic (name +:+ "'"))
  | _ => Err AttributeError
  end.

(** ** Newton's method *)

(** What a run of the Newton code does besides returning: the calls
    [g.evaluate(x)] it makes, in order. *)
Inductive event := Evaluated (g : obj) (x : num).

(** The result of a run: [None] when the loop is still running after
    [fuel] rounds, the returned point or the raised exception otherwise. *)
Definition run : Type := list event * option (result num).

(** [abs(fx) > tol] *)
Definition abs_gt (fx : obj) (tol : num) : result bool :=
  match fx with
  | ONum v => Ok (ngtb (nabs v) tol)
  | _ => Err TypeError
  end.

(** [fx / dx] for the two evaluation results of a Newton step. *)
Definition py_truediv (fx dx : obj) : result num :=
  match fx, dx with
  | ONum a, ONum b => ndiv a b
  | _, _ => Err TypeError
  end.

(** The loop body:
<<
    x = x - fx/f.derivative().evaluate(x)
    fx = f.evaluate(x)
>> *)
Definition newton_step (f : obj) (x : num) (fx : obj) : list event * result (num * obj) :=
  match derivative f with
  | Err e => ([], Err e)
  | Ok d =>
    match (dx ← evaluate d (ONum x); py_truediv fx dx) with
    | Err e => ([Evaluated d x], Err e)
    | Ok q =>
      let x' := x ⊖ q in
      match evaluate f (ONum x') with
      | Err e => ([Evaluated d x; Evaluated f x'], Err e)
      | Ok fx' => ([Evaluated d x; Evaluated f x'], Ok (x', fx'))
      end
    end
  end.

(** [while(abs(fx) > tol): ...; return x], for at most [fuel] rounds. *)
Fixpoint newton_loop (fuel : nat) (f : obj) (tol x : num) (fx : obj) : run :=
  match abs_gt fx tol with
  | Err e => ([], Some (Err e))
  | Ok false => ([], Some (Ok x))
  | Ok true =>
    match fuel with
    | O => ([], None)
    | S fuel' =>
      match newton_step f x fx with
      | (tr, Err e) => (tr, Some (Err e))
      | (tr, Ok (x', fx')) =>
        let r := newton_loop fuel' f tol x' fx' in (tr ++ r.1, r.2)
      end
    end
  end.

(** The two checks at the head of [newton_root]. *)
Definition newton_check (f : obj) : result () :=
  if negb (is_node f) then Err (ValueError "f must be an AbstractFunction")
  else if is_symbolic f then Err (ValueError "f must not be a Symbolic")
  else Ok ().

(** [newton_root] after its checks: the first evaluation and the loop. *)
Definition newton_iterate (fuel : nat) (f : obj) (x0 tol : num) : run :=
  match evaluate f (ONum x0) with
  | Err e => ([Evaluated f x0], Some (Err e))
  | Ok fx =>
    let r := newton_loop fuel f tol x0 fx in (Evaluated f x0 :: r.1, r.2)
  end.

(** [newton_root(f, x0, tol)] *)
Definition newton_root (fuel : nat) (f : obj) (x0 tol : num) : run :=
  match newton_check f with
  | Err e => ([], Some (Err e))
  | Ok _ => newton_iterate fuel f x0 tol
  end.

(** [newton_extremum(f, x0, tol)]:
<<
    f = f.derivative()
    return newton_root(f,x0)
>> *)
Definition newton_extremum (fuel : nat) (f : obj) (x0 tol : num) : run :=
  match derivative f with
  | Err e => ([], Some (Err e))
  | Ok f' => newton_root fuel f' x0 tol_default
  end.

End Objects.

Arguments obj : clear implicits.
Arguments obj {N}.
Arguments run {N}.
Arguments event {N}.

(** ** Polynomial addition on a store

    A Polynomial object owns a numpy array, which [__add__] updates in
    place.  The store maps the address of each Polynomial's [coeff] array
    to its contents.  All arrays of a store hold numbers of the one type
    [num]: numpy's refusal to write a float64 sum into an int64 array
    ([Polynomial(1,2) + Polynomial(0.5)] raises) concerns two arrays of
    different types and has no counterpart here. *)
Module PolyStore.
Section PolyStore.
Context `{N : Numeric}.

Definition loc := positive.

(** The constructor call [Polynomial( *coeff)] copies its arguments into a
    new array. *)
Definition alloc (σ : gmap loc (list num)) (coeff : list num) : loc * gmap loc (list num) :=
  let l := fresh (dom σ) in (l, <[l := coeff]> σ).

(** [coeff = a.coeff; coeff[-(b.degree() + 1):] += b.coeff], then the
    constructor call on [coeff]: the name [coeff] is the array of [a], which
    the sum is written into before the new Polynomial copies it. *)
Definition add_into (σ : gmap loc (list num)) (a b : loc)
  : result (loc * gmap loc (list num)) :=
  match σ !! a, σ !! b with
  | Some ca, Some cb =>
      coeff ← slice_iadd ca (degree cb + 1) cb;
      Ok (alloc (<[a := coeff]> σ) coeff)
  | _, _ => Err AttributeError
  end.

(** [self + other] for two Polynomials at addresses [self] and [other]. *)
Definition add (σ : gmap loc (list num)) (self other : loc)
  : result (loc * gmap loc (list num)) :=
  match σ !! self, σ !! other with
  | Some cs, Some co =>
      if degree cs >? degree co then add_into σ self other
      else add_into σ other self
  | _, _ => Err AttributeError
  end.

End PolyStore.
End PolyStore.

(** ** Sums of powers

    What the properties below compare the code with: the power sum of a
    coefficient sequence, its term-by-term derivative, the degree weights
    and the right-aligned sum of two sequences. *)
Section PowerSums.
Context `{N : Numeric}.

(** The sum of a list of numbers. *)
Definition nsum (l : list num) : num := fold_right nadd (of_Z 0) l.

(** [c_k], the coefficient of degree [k] in [c_n ... c_0]. *)
Definition coeff_at (coeff : list num) (k : nat) : num :=
  nth (length coeff - 1 - k) coeff (of_Z 0).

(** The coefficient-weighted power sum [c_0 + c_1*x + ... + c_n*x^n]. *)
Definition power_sum (coeff : list num) (x : num) : num :=
  nsum (map (λ k, coeff_at coeff k ⊗ pow_nat x k) (seq 0 (length coeff))).



(** The sum of two coefficient sequences aligned at their right ends (the
    constant terms). *)
Definition right_aligned_sum (a b : list num) : list num :=
  rev (add_aligned_left (rev a) (rev b)).

(** The same power sum by recursion on the coefficients, highest first
    (used in the proofs). *)
Fixpoint hsum (coeff : list num) (x : num) : num :=
  match coeff with
  | [] => of_Z 0
  | c :: cs => c ⊗ pow_nat x (length cs) ⊕ hsum cs x
  end.


(** An expression tree: a node all of whose children are expression
    trees (what the constructors and operators build from nodes). *)
Fixpoint is_tree (f : obj) : bool :=
  match f with
  | Compose f g | Sum f g | Product f g => is_tree f && is_tree g
  | _ => is_node f
  end.

(** An expression tree without Symbolic nodes. *)
Fixpoint symbol_free (f : obj) : bool :=
  match f with
  | Compose f g | Sum f g | Product f g => symbol_free f && symbol_free g
  | Symbolic _ => false
  | _ => is_node f
  end.

(** [f.derivative()...derivative()], with [k] calls. *)
Fixpoint iter_derivative (k : nat) (f : obj) : result obj :=
  match k with
  | O => Ok f
  | S k' => f' ← derivative f; iter_derivative k' f'
  end.

(** A brace: the only characters [str.format] does not copy. *)
Definition is_brace (c : ascii) : bool := Ascii.eqb c "{" || Ascii.eqb c "}".

(** A string without braces. *)
Fixpoint brace_free (s : string) : bool :=
  match s with
  | EmptyString => true
  | String c s' => negb (is_brace c) && brace_free s'
  end.

(** A format string made of plain characters, fields [{0}] and the escapes
    [{{] and [}}]. *)
Inductive template : string → Prop :=
  | template_nil : template ""
  | template_char (c : ascii) (t : string) :
      is_brace c = false → template t → template (String c t)
  | template_field (t : string) :
      template t → template (String "{" (String "0" (String "}" t)))
  | template_open (t : string) :
      template t → template (String "{" (String "{" t))
  | template_close (t : string) :
      template t → template (String "}" (String "}" t)).

(** An expression tree whose Symbolic names hold no brace. *)
Fixpoint plain_names (f : obj) : bool :=
  match f with
  | Compose f g | Sum f g | Product f g => plain_names f && plain_names g
  | Symbolic name => brace_free name
  | _ => is_node f
  end.

(** The sum of [l_i * x^(s+i)]. *)
Fixpoint lsum (x : num) (s : nat) (l : list num) : num :=
  match l with
  | [] => of_Z 0
  | c :: l' => c ⊗ pow_nat x s ⊕ lsum x (S s) l'
  end.

End PowerSums.

(** ** Number types

    Three instances of [Numeric]: [Fractions], which is exact, and numpy's
    [Int64] and [Float64], which wrap and round.

    Some results are no number of the type at hand: Python returns a float
    for a Fraction raised to a fractional power, numpy a float64 for the
    quotient of two int64, and the logarithm of a float64 is computed by
    the C library, which has no definition here.  An instance has no value
    for such a result.  It answers [outside], so that a run needing the
    value stops there, visibly, and does not go on with a made-up number;
    no statement below rests on it. *)
Definition outside {A} (what : string) : result A :=
  Err (NotImplementedError what).

(** ** Exact rationals

    [fractions.Fraction] computes exactly; [Fractions] is the [Numeric]
    instance of these numbers, kept by [np.array] in an array of objects.
    (The integers written in [Polynomial(1, 0, -4)] are not of this type:
    [np.array] stores them as int64, see [Int64]; as long as nothing wraps
    or rounds, their values are those of the integral fractions.)  numpy's
    elementwise functions have no loop for a Fraction and raise
    [TypeError]; a power with a non-integral exponent is a float, [outside]
    the rationals.  [tol_default] is the value of the float literal
    [1e-8]. *)
Module Fractions.

Definition from_Z (z : Z) : Qc := Q2Qc (inject_Z z).

Definition is_integral (q : Qc) : bool := (Qden q =? 1)%positive.

Definition div (a b : Qc) : result Qc :=
  if Qeq_bool b 0 then Err ZeroDivisionError else Ok (a / b)%Qc.

Definition pow (a b : Qc) : result Qc :=
  if is_integral b then
    if 0 <=? Qnum b then Ok (Qcpower a (Z.to_nat (Qnum b)))
    else if Qeq_bool a 0 then Err ZeroDivisionError
    else Ok (/ Qcpower a (Z.to_nat (- Qnum b)))%Qc
  else outside "float".

Definition gtb (a b : Qc) : bool :=
  match (b ?= a)%Q with Lt => true | _ => false end.

Definition abs (a : Qc) : Qc := Q2Qc (Qabs a).

Definition show (q : Qc) : string :=
  if is_integral q then pretty (Qnum q)
  else pretty (Qnum q) +:+ "/" +:+ pretty (Zpos (Qden q)).

Definition repr (q : Qc) : string :=
  "Fraction(" +:+ pretty (Qnum q) +:+ ", " +:+ pretty (Zpos (Qden q)) +:+ ")".

Fixpoint join (sep : string) (l : list string) : string :=
  match l with
  | [] => ""
  | [s] => s
  | s :: l' => s +:+ sep +:+ join sep l'
  end.

#[global] Instance numeric : Numeric := {|
  num := Qc;
  of_Z := from_Z;
  nadd := Qcplus;
  nsub := Qcminus;
  nmul := Qcmult;
  ndiv := div;
  npow := pow;
  nabs := abs;
  ngtb := gtb;
  neqb := λ a b, Qeq_bool a b;
  nindex := λ _, None;
  nlog := λ _, Err TypeError;
  nexp := λ _, Err TypeError;
  nsin := λ _, Err TypeError;
  ncos := λ _, Err TypeError;
  tol_default := Q2Qc (3022314549036573 # 302231454903657293676544);
  show_num := show;
  show_array := λ l, "[" +:+ join " " (map repr l) +:+ "]";
  show_list := λ l, "[" +:+ join ", " (map repr l) +:+ "]"
|}.

(** The Polynomial with the integral fractions [c_n ... c_0] as
    coefficients, and an integral fraction as an object. *)
Definition poly (l : list Z) : obj (N := numeric) := Polynomial (map from_Z l).
Definition number (z : Z) : obj (N := numeric) := ONum (from_Z z).

(** Two Polynomials in a store, at addresses 1 and 2. *)
Definition store2 (a b : list Z) : gmap PolyStore.loc (list Qc) :=
  <[2%positive := map from_Z b]> (<[1%positive := map from_Z a]> ∅).

End Fractions.

(** ** numpy's int64

    [np.array] stores the integers a Polynomial is built from as int64,
    and an array of integers has int64 entries.  Sums, products and powers
    of int64 are taken modulo [2^64], without an exception.  [Int64] is the
    [Numeric] instance of these numbers, as the integers of the signed
    range, for the operations whose result is an int64 again: the quotient
    [a / b] and numpy's elementwise functions return a float64, [outside]
    this type.  The tolerance [1e-8] is only compared with integers, and an
    integer exceeds it exactly when it exceeds 0.  Arrays print as short
    arrays do (entries right-aligned in one line), lists as numpy 2 prints
    their entries. *)
Module Int64.

(** The int64 that a sum or product in the integers comes out as. *)
Definition wrap (z : Z) : Z := (z + 2 ^ 63) mod 2 ^ 64 - 2 ^ 63.

Definition pow (a b : Z) : result Z :=
  if b <? 0
  then Err (ValueError "Integers to negative integer powers are not allowed.")
  else Ok (wrap (a ^ b)).

Definition pad (w : nat) (s : string) : string :=
  str_repeat " " (w - String.length s) +:+ s.

Definition str_array (l : list Z) : string :=
  let ss := map pretty l in
  let w := fold_right Nat.max 0%nat (map String.length ss) in
  "[" +:+ Fractions.join " " (map (pad w) ss) +:+ "]".

Definition str_list (l : list Z) : string :=
  "[" +:+ Fractions.join ", " (map (λ z, "np.int64(" +:+ pretty z +:+ ")") l) +:+ "]".

Definition numeric : Numeric := {|
  num := Z;
  of_Z := wrap;
  nadd := λ a b, wrap (a + b);
  nsub := λ a b, wrap (a - b);
  nmul := λ a b, wrap (a * b);
  ndiv := λ _ _, outside "float64";
  npow := pow;
  nabs := λ a, wrap (Z.abs a);
  ngtb := λ a b, b <? a;
  neqb := Z.eqb;
  nindex := Some;
  nlog := λ _, outside "float64";
  nexp := λ _, outside "float64";
  nsin := λ _, outside "float64";
  ncos := λ _, outside "float64";
  tol_default := 0;
  show_num := pretty;
  show_array := str_array;
  show_list := str_list
|}.

(** [Polynomial(c_n, ..., c_0)] with integer arguments, and an integer. *)
Definition poly (l : list Z) : obj (N := numeric) := Polynomial (N := numeric) l.
Definition number (z : Z) : obj (N := numeric) := ONum (N := numeric) z.



End Int64.

(** ** numpy's float64

    IEEE 754 double precision: every sum, product and quotient is rounded
    to the nearest double.  [Float64] is the [Numeric] instance of these
    numbers, on Rocq's primitive floats.  An integer is converted to the
    nearest double; a division by zero gives an infinity or a NaN without
    an exception; [==] is the IEEE comparison, under which a NaN differs
    from itself.

    [**] is the C library's [pow], which IEEE 754 does not fix.  For an
    integral exponent it is taken here as the correctly rounded power (the
    [pown] that IEEE 754 recommends); the C library may differ from that in
    the last bit for some arguments, though not for those used below.
    Any other exponent and [log], [exp], [sin], [cos] are [outside].
    Python prints a float with the shortest digits that read back as the
    same float; that search is not written out, and [show] gives the exact
    value as a fraction of two integers instead. *)
Module Float64.

Definition from_Z (z : Z) : PrimFloat.float :=
  FloatOps.SF2Prim (SpecFloat.binary_normalize FloatOps.prec FloatOps.emax z 0 false).

(** The literal for the decimal fraction [a/b], such as [0.3] for [3/10],
    with [a] and [b] doubles: the double nearest to it. *)
Definition ratio (a b : Z) : PrimFloat.float := PrimFloat.div (from_Z a) (from_Z b).

(** [Some k] when the double [y] is the integer [k]. *)
Definition integral (y : PrimFloat.float) : option Z :=
  match FloatOps.Prim2SF y with
  | SpecFloat.S754_zero _ => Some 0
  | SpecFloat.S754_finite s m e =>
      let sign (v : Z) := if s then - v else v in
      if 0 <=? e then Some (sign (Zpos m * 2 ^ e))
      else if Zpos m mod 2 ^ (- e) =? 0 then Some (sign (Zpos m / 2 ^ (- e)))
      else None
  | _ => None
  end.

(** [x^k] for [k > 0], exactly (the mantissa is not cut to 53 bits). *)
Definition exact_pow (x : SpecFloat.spec_float) (k : positive) : SpecFloat.spec_float :=
  let odd := Z.odd (Zpos k) in
  match x with
  | SpecFloat.S754_finite s m e => SpecFloat.S754_finite (s && odd) (m ^ k) (e * Zpos k)
  | SpecFloat.S754_zero s => SpecFloat.S754_zero (s && odd)
  | SpecFloat.S754_infinity s => SpecFloat.S754_infinity (s && odd)
  | SpecFloat.S754_nan => SpecFloat.S754_nan
  end.

(** Rounding to the nearest double. *)
Definition round (x : SpecFloat.spec_float) : PrimFloat.float :=
  match x with
  | SpecFloat.S754_finite s m e =>
      FloatOps.SF2Prim
        (SpecFloat.binary_round_aux FloatOps.prec FloatOps.emax s (Zpos m) e
                                    SpecFloat.loc_Exact)
  | _ => FloatOps.SF2Prim x
  end.

Definition pow (x y : PrimFloat.float) : result PrimFloat.float :=
  match integral y with
  | Some 0 => Ok (from_Z 1)
  | Some (Zpos k) => Ok (round (exact_pow (FloatOps.Prim2SF x) k))
  | Some (Zneg k) =>
      Ok (FloatOps.SF2Prim
            (SpecFloat.SFdiv FloatOps.prec FloatOps.emax
                             (SpecFloat.S754_finite false 1 0)
                             (exact_pow (FloatOps.Prim2SF x) k)))
  | None => outside "C library pow"
  end.

Definition show (x : PrimFloat.float) : string :=
  match FloatOps.Prim2SF x with
  | SpecFloat.S754_zero s => if s then "-0.0" else "0.0"
  | SpecFloat.S754_infinity s => if s then "-inf" else "inf"
  | SpecFloat.S754_nan => "nan"
  | SpecFloat.S754_finite s m e =>
      let n := if 0 <=? e then Zpos m * 2 ^ e else Zpos m in
      let d := if 0 <=? e then 1 else 2 ^ (- e) in
      (if s then "-" else "") +:+
      pretty (n / Z.gcd n d) +:+ "/" +:+ pretty (d / Z.gcd n d)
  end.

Definition numeric : Numeric := {|
  num := PrimFloat.float;
  of_Z := from_Z;
  nadd := PrimFloat.add;
  nsub := PrimFloat.sub;
  nmul := PrimFloat.mul;
  ndiv := λ a b, Ok (PrimFloat.div a b);
  npow := pow;
  nabs := PrimFloat.abs;
  ngtb := λ a b, PrimFloat.ltb b a;
  neqb := PrimFloat.eqb;
  nindex := λ _, None;
  nlog := λ _, outside "C library log";
  nexp := λ _, outside "C library exp";
  nsin := λ _, outside "C library sin";
  ncos := λ _, outside "C library cos";
  tol_default := ratio 1 100000000;
  show_num := show;
  show_array := λ l, "[" +:+ Fractions.join " " (map show l) +:+ "]";
  show_list := λ l, "[" +:+ Fractions.join ", " (map show l) +:+ "]"
|}.

(** [Polynomial(c_n, ..., c_0)] with the doubles of integers, a double
    as an object, and an array of doubles. *)
Definition poly (l : list Z) : obj (N := numeric) :=
  Polynomial (N := numeric) (map from_Z l).
Definition number (x : PrimFloat.float) : obj (N := numeric) := ONum (N := numeric) x.

End Float64.

(** * Properties *)

(** ** The rationals are exact *)
Module FractionsLaws.
Import Fractions.

Lemma from_Z_this (z : Z) : this (from_Z z) = inject_Z z.
Proof.
  unfold from_Z. simpl. apply Qred_identity. simpl. apply Z.gcd_1_r.
Qed.

Lemma pow_nat_Qcpower (x : Qc) (k : nat) : pow_nat x k = Qcpower x k.
Proof.
  induction k as [|k IH]; simpl.
  - reflexivity.
  - now rewrite IH.
Qed.

#[global] Instance laws : NumericLaws numeric.
Proof.
  split; simpl; intros.
  - apply Qcplus_comm.
  - apply Qcplus_assoc.
  - apply Qcplus_0_l.
  - apply Qcmult_comm.
  - apply Qcmult_assoc.
  - apply Qcmult_1_l.
  - apply Qcmult_0_l.
  - apply Qcmult_plus_distr_r.
  - unfold Qcminus. apply Qcplus_opp_r.
  - unfold Qcminus. symmetry. apply Qcplus_assoc.
  - apply Qc_is_canon. unfold from_Z. simpl.
    rewrite !Qred_correct. rewrite inject_Z_plus. reflexivity.
  - unfold pow, is_integral. rewrite from_Z_this. simpl.
    destruct (Z.leb_spec 0 (Z.of_nat k)); [|lia].
    now rewrite Nat2Z.id, pow_nat_Qcpower.
Qed.

Lemma neqb_eq (u v : Qc) : neqb u v = true → u = v.
Proof.
  simpl. intros H. apply Qc_is_canon. now apply Qeq_bool_iff.
Qed.

End FractionsLaws.

Section Arithmetic.
Context `{L : NumericLaws}.

Lemma nadd_0_r (a : num) : a ⊕ of_Z 0 = a.
Proof. rewrite nadd_comm. apply nadd_0_l. Qed.

Lemma nmul_1_r (a : num) : a ⊗ of_Z 1 = a.
Proof. rewrite nmul_comm. apply nmul_1_l. Qed.

Lemma nmul_0_r (a : num) : a ⊗ of_Z 0 = of_Z 0.
Proof. rewrite nmul_comm. apply nmul_0_l. Qed.

Lemma nmul_add_distr_r (a b c : num) : (a ⊕ b) ⊗ c = (a ⊗ c) ⊕ (b ⊗ c).
Proof. rewrite nmul_comm, nmul_add_distr_l. now rewrite !(nmul_comm c). Qed.

Lemma nadd_cancel_zero (a b : num) : a ⊕ b = a ↔ b = of_Z 0.
Proof.
  split; intros H.
  - assert (E : (b ⊕ a) ⊖ a = a ⊖ a) by (rewrite (nadd_comm b a); now rewrite H).
    rewrite nadd_sub_assoc, nsub_diag in E. now rewrite nadd_0_r in E.
  - subst. apply nadd_0_r.
Qed.

Lemma nsum_app (l1 l2 : list num) : nsum (l1 ++ l2) = nsum l1 ⊕ nsum l2.
Proof.
  induction l1 as [|a l1 IH]; simpl.
  - now rewrite nadd_0_l.
  - now rewrite IH, nadd_assoc.
Qed.

Lemma fold_left_nadd (l : list num) (a : num) : fold_left nadd l a = a ⊕ nsum l.
Proof.
  revert a. induction l as [|b l IH]; intros a; simpl.
  - now rewrite nadd_0_r.
  - now rewrite IH, nadd_assoc.
Qed.

Lemma lsum_snoc (x : num) (l : list num) (c : num) (s : nat) :
  lsum x s (l ++ [c]) = lsum x s l ⊕ c ⊗ pow_nat x (s + length l).
Proof.
  revert s. induction l as [|a l IH]; intros s; simpl.
  - now rewrite Nat.add_0_r, nadd_0_r, nadd_0_l.
  - rewrite IH, <- nadd_assoc.
    now replace (s + S (length l))%nat with (S s + length l)%nat by lia.
Qed.

Lemma lsum_rev (coeff : list num) (x : num) : lsum x 0 (rev coeff) = hsum coeff x.
Proof.
  induction coeff as [|c cs IH]; simpl; [reflexivity|].
  rewrite lsum_snoc, IH, length_rev. simpl. apply nadd_comm.
Qed.

Lemma fold_poly_eval_step (x : num) (l : list num) (s : nat) (a : num) :
  fold_left (poly_eval_step x) (combine (seq s (length l)) l) (Ok a)
  = Ok (a ⊕ lsum x s l).
Proof.
  revert s a. induction l as [|c l IH]; intros s a; simpl.
  - now rewrite nadd_0_r.
  - rewrite npow_nat. simpl. rewrite IH. now rewrite nadd_assoc.
Qed.

Lemma poly_eval_scalar_hsum (coeff : list num) (x : num) :
  poly_eval_scalar coeff x = Ok (hsum coeff x).
Proof.
  unfold poly_eval_scalar, enumerate.
  rewrite fold_poly_eval_step, nadd_0_l. now rewrite lsum_rev.
Qed.

Lemma evaluate_polynomial_hsum (coeff : list num) (x : num) :
  evaluate (Polynomial coeff) (ONum x) = Ok (ONum (hsum coeff x)).
Proof. simpl. now rewrite poly_eval_scalar_hsum. Qed.

Lemma coeff_at_cons_lt (c : num) (cs : list num) (k : nat) :
  (k < length cs)%nat → coeff_at (c :: cs) k = coeff_at cs k.
Proof.
  intros Hk. unfold coeff_at. simpl length.
  replace (S (length cs) - 1 - k)%nat with (S (length cs - 1 - k)) by lia.
  reflexivity.
Qed.

Lemma coeff_at_cons_top (c : num) (cs : list num) :
  coeff_at (c :: cs) (length cs) = c.
Proof.
  unfold coeff_at. simpl length.
  now replace (S (length cs) - 1 - length cs)%nat with O by lia.
Qed.

Lemma power_sum_hsum (coeff : list num) (x : num) : power_sum coeff x = hsum coeff x.
Proof.
  induction coeff as [|c cs IH]; [reflexivity|].
  unfold power_sum. simpl length. rewrite seq_S, map_app, nsum_app. simpl.
  rewrite coeff_at_cons_top, nadd_0_r, nadd_comm. f_equal.
  rewrite <- IH. unfold power_sum. f_equal.
  apply map_ext_in. intros k Hk. apply in_seq in Hk.
  rewrite coeff_at_cons_lt by lia. reflexivity.
Qed.

End Arithmetic.

Section PolynomialProperties.
Context `{L : NumericLaws}.

Lemma vander_row_sum (coeff : list num) (x : num) :
  fold_left nadd
    (zip_with nmul (map (λ j, pow_nat x (length coeff - 1 - j)) (seq 0 (length coeff))) coeff)
    (of_Z 0)
  = hsum coeff x.
Proof.
  rewrite fold_left_nadd, nadd_0_l.
  induction coeff as [|c cs IH]; [reflexivity|].
  simpl length. rewrite <- cons_seq, <- fmap_S_seq. simpl.
  rewrite !Nat.sub_0_r, (nmul_comm _ c). f_equal.
  rewrite <- IH. f_equal. f_equal.
  rewrite <- list_fmap_compose. apply map_ext. intros j. simpl.
  f_equal. lia.
Qed.

Lemma poly_eval_vector_lookup (coeff xs : list num) (i : nat) (x : num) :
  xs !! i = Some x → poly_eval_vector coeff xs !! i = Some (hsum coeff x).
Proof.
  intros Hx. unfold poly_eval_vector, dot, vander.
  rewrite !list_lookup_fmap, Hx. simpl. f_equal. apply vander_row_sum.
Qed.








(** The derivative sum is the first-order coefficient of the power sum:
    [p(x + h) = p(x) + h * p'(x) + h^2 * r] for some [r]. *)
Lemma num_semi_ring : semi_ring_theory (of_Z 0) (of_Z 1) nadd nmul eq.
Proof.
  constructor.
  - apply nadd_0_l.
  - apply nadd_comm.
  - apply nadd_assoc.
  - apply nmul_1_l.
  - apply nmul_0_l.
  - apply nmul_comm.
  - apply nmul_assoc.
  - apply nmul_add_distr_r.
Qed.

Add Ring num_ring : num_semi_ring.



End PolynomialProperties.

(** ** Polynomial evaluation and differentiation *)










(** [Polynomial(1,0).derivative()] is the constant 1 and
    [Polynomial(0).derivative()] the zero polynomial. *)
Example derivative_of_identity :
  derivative (Fractions.poly [1; 0]) = Ok (Fractions.poly [1]).
Proof. reflexivity. Qed.

Example derivative_of_zero :
  derivative (Fractions.poly [0]) = Ok (Fractions.poly [0]).
Proof. reflexivity. Qed.

(** [x^2 - 4] at 3, as a number and inside an array. *)
Example evaluate_square_minus_four :
  evaluate (Fractions.poly [1; 0; -4]) (Fractions.number 3) = Ok (Fractions.number 5)
  ∧ evaluate (Fractions.poly [1; 0; -4]) (OArr (map Fractions.from_Z [0; 3]))
    = Ok (OArr (map Fractions.from_Z [-4; 5])).
Proof. split; reflexivity. Qed.

(** ** Calls, composition and the chain rule *)

Section Calls.
Context `{N : Numeric}.

(** Calling a node other than a Symbolic with a number evaluates it. *)
Lemma call_number (f : obj) (v : num) :
  is_node f = true → is_symbolic f = false →
  call f (ONum v) = evaluate f (ONum v).
Proof. destruct f; simpl; intros; congruence. Qed.

(** Calling a node other than a Symbolic with a node composes them. *)
Lemma call_node (f g : obj) :
  is_node f = true → is_symbolic f = false → is_node g = true →
  call f g = Ok (Compose f g).
Proof.
  intros Hf Hs Hg. unfold call, call_with.
  destruct f; simpl in *; try congruence; now rewrite Hg.
Qed.

(** The derivative of a node other than a Symbolic is such a node. *)
Lemma derivative_node (f f' : obj) :
  is_symbolic f = false → derivative f = Ok f' →
  is_node f' = true ∧ is_symbolic f' = false.
Proof.
  intros Hs H. destruct f; simpl in *; try congruence.
  - destruct (poly_derivative coeff); simpl in H; inversion H; auto.
  - destruct (derivative f1); simpl in H; [|congruence].
    destruct (call a f2); simpl in H; [|congruence].
    destruct (derivative f2); simpl in H; inversion H; auto.
  - destruct (derivative f1); simpl in H; [|congruence].
    destruct (derivative f2); simpl in H; inversion H; auto.
  - destruct (derivative f1); simpl in H; [|congruence].
    destruct (derivative f2); simpl in H; inversion H; auto.
  - inversion H; auto.
  - inversion H; auto.
  - inversion H; auto.
  - inversion H; auto.
  - inversion H; auto.
Qed.

(** The derivative of a composition, evaluated at a number [x] where [g]
    has a numeric value [gx]: the product of [f'] at [gx] and [g'] at [x],
    whatever these two evaluations give. *)
Lemma compose_derivative_evaluate (f g f' g' : obj) (x gx : num) :
  is_node f = true → is_symbolic f = false →
  is_node g = true → is_symbolic g = false →
  derivative f = Ok f' → derivative g = Ok g' →
  evaluate g (ONum x) = Ok (ONum gx) →
  derivative (Compose f g) = Ok (Product (Compose f' g) g')
  ∧ evaluate (Product (Compose f' g) g') (ONum x)
    = (a ← evaluate f' (ONum gx); b ← evaluate g' (ONum x); py_mul a b).
Proof.
  intros Hf Hfs Hg Hgs Df Dg Eg.
  destruct (derivative_node f f' Hfs Df) as [Hf' Hfs'].
  destruct (derivative_node g g' Hgs Dg) as [Hg' Hgs'].
  split.
  - simpl. rewrite Df. simpl. rewrite (call_node f' g Hf' Hfs' Hg). simpl.
    rewrite Dg. reflexivity.
  - change (evaluate (Product (Compose f' g) g') (ONum x))
      with (a ← call (Compose f' g) (ONum x); b ← call g' (ONum x); py_mul a b).
    rewrite (call_number g' x Hg' Hgs').
    rewrite (call_number (Compose f' g) x eq_refl eq_refl).
    change (evaluate (Compose f' g) (ONum x))
      with (y ← call g (ONum x); call f' y).
    rewrite (call_number g x Hg Hgs), Eg. simpl.
    rewrite (call_number f' gx Hf' Hfs'). reflexivity.
Qed.

(** Linearity: the derivative of a sum evaluates to the sum of the
    derivatives' values. *)
Lemma sum_derivative_evaluate (f g f' g' : obj) (x : num) :
  is_symbolic f = false → is_symbolic g = false →
  derivative f = Ok f' → derivative g = Ok g' →
  derivative (Sum f g) = Ok (Sum f' g')
  ∧ evaluate (Sum f' g') (ONum x)
    = (a ← evaluate f' (ONum x); b ← evaluate g' (ONum x); py_add a b).
Proof.
  intros Hfs Hgs Df Dg.
  destruct (derivative_node f f' Hfs Df) as [Hf' Hfs'].
  destruct (derivative_node g g' Hgs Dg) as [Hg' Hgs'].
  split.
  - simpl. now rewrite Df, Dg.
  - change (evaluate (Sum f' g') (ONum x))
      with (a ← call f' (ONum x); b ← call g' (ONum x); py_add a b).
    now rewrite (call_number f' x Hf' Hfs'), (call_number g' x Hg' Hgs').
Qed.

(** The product rule. *)
Lemma product_derivative_evaluate (f g f' g' : obj) (x : num) :
  is_node f = true → is_symbolic f = false →
  is_node g = true → is_symbolic g = false →
  derivative f = Ok f' → derivative g = Ok g' →
  derivative (Product f g) = Ok (Sum (Product f' g) (Product f g'))
  ∧ evaluate (Sum (Product f' g) (Product f g')) (ONum x)
    = (a ← (u ← evaluate f' (ONum x); v ← evaluate g (ONum x); py_mul u v);
       b ← (u ← evaluate f (ONum x); v ← evaluate g' (ONum x); py_mul u v);
       py_add a b).
Proof.
  intros Hf Hfs Hg Hgs Df Dg.
  destruct (derivative_node f f' Hfs Df) as [Hf' Hfs'].
  destruct (derivative_node g g' Hgs Dg) as [Hg' Hgs'].
  split.
  - simpl. now rewrite Df, Dg.
  - change (evaluate (Sum (Product f' g) (Product f g')) (ONum x))
      with (a ← (u ← call f' (ONum x); v ← call g (ONum x); py_mul u v);
            b ← (u ← call f (ONum x); v ← call g' (ONum x); py_mul u v);
            py_add a b).
    now rewrite (call_number f' x Hf' Hfs'), (call_number g' x Hg' Hgs'),
      (call_number f x Hf Hfs), (call_number g x Hg Hgs).
Qed.

End Calls.

(** The derivative of [Compose(Power(2), Sin())] at [x] is
    [2*sin(x)*cos(x)]. *)
Section SquareOfSine.
Context `{L : NumericLaws}.

Add Ring num_ring' : num_semi_ring.

Lemma two_minus_one : of_Z 2 ⊖ of_Z 1 = of_Z 1.
Proof.
  change 2 with (1 + 1). rewrite of_Z_succ by lia.
  now rewrite nadd_sub_assoc, nsub_diag, nadd_0_r.
Qed.

Lemma square_of_sine_derivative (x s c : num) :
  nsin x = Ok s → ncos x = Ok c →
  ∃ d, derivative (Compose (Power (of_Z 2)) Sin) = Ok d
       ∧ evaluate d (ONum x) = Ok (ONum (of_Z 2 ⊗ s ⊗ c)).
Proof.
  intros Hs Hc. eexists. split; [reflexivity|].
  cbn. rewrite Hs, Hc. cbn. rewrite two_minus_one.
  change (of_Z 1) with (of_Z (Z.of_nat 1)).
  rewrite (npow_nat s 0), (npow_nat s 1). cbn.
  do 2 f_equal. ring.
Qed.

End SquareOfSine.

(** C2.  For nodes [f] and [g] that are not Symbolic and a scalar [x] in
    the common domain (where [g.evaluate(x)], [f.derivative()] at that
    value and [g.derivative()] at [x] are numbers),
    [Compose(f,g).derivative().evaluate(x)] is
    [f.derivative().evaluate(g.evaluate(x))] times
    [g.derivative().evaluate(x)]. *)
Theorem compose_chain_rule `{N : Numeric} (f g f' g' : obj) (x gx a b : num) :
  is_node f = true → is_symbolic f = false →
  is_node g = true → is_symbolic g = false →
  derivative f = Ok f' → derivative g = Ok g' →
  evaluate g (ONum x) = Ok (ONum gx) →
  evaluate f' (ONum gx) = Ok (ONum a) →
  evaluate g' (ONum x) = Ok (ONum b) →
  ∃ d, derivative (Compose f g) = Ok d
       ∧ evaluate d (ONum x) = Ok (ONum (a ⊗ b)).
Proof.
  intros Hf Hfs Hg Hgs Df Dg Eg Ea Eb.
  destruct (compose_derivative_evaluate f g f' g' x gx Hf Hfs Hg Hgs Df Dg Eg)
    as [Hd He].
  eexists. split; [exact Hd|]. rewrite He, Ea, Eb. reflexivity.
Qed.

Lemma compose_chain_rule_witness :
  ∃ d, derivative (Compose (Fractions.poly [1; 0; 0]) (Fractions.poly [2; 1])) = Ok d
       ∧ evaluate d (Fractions.number 1)
         = Ok (ONum (Fractions.from_Z 6 ⊗ Fractions.from_Z 2)).
Proof.
  apply (compose_chain_rule
           (Fractions.poly [1; 0; 0]) (Fractions.poly [2; 1])
           (Fractions.poly [2; 0]) (Fractions.poly [2])
           (Fractions.from_Z 1) (Fractions.from_Z 3));
    vm_compute; reflexivity.
Defined.

(** ** Symbolic nodes, rendering and the fall-through of [evaluate] *)

(** C8.  For every Symbolic node with name [n] and every argument [x],
    whether a number, a string or another node, the call returns the string
    made of the name and the printed argument in parentheses; what it
    returns is never a Compose node and never a number. *)
Theorem symbolic_call_string `{N : Numeric} (name : string) (x : obj) :
  call (Symbolic name) x = Ok (OStr (name +:+ "(" +:+ py_str x +:+ ")"))
  ∧ ∀ r, call (Symbolic name) x = Ok r → is_node r = false ∧ is_number r = false.
Proof.
  split; [reflexivity|].
  intros r H. inversion H; subst. split; reflexivity.
Qed.

(** C9.  Calling [Polynomial(1,2,0)] with the indeterminate name ["x"]
    returns the string ["(x)^2 + 2(x)"], for numbers whose [==] tells 0, 1
    and 2 apart and that print 2 as ["2"]. *)
Theorem polynomial_render_example `{N : Numeric} :
  neqb (of_Z 1) (of_Z 0) = false →
  neqb (of_Z 1) (of_Z 1) = true →
  neqb (of_Z 2) (of_Z 0) = false →
  neqb (of_Z 2) (of_Z 1) = false →
  neqb (of_Z 0) (of_Z 0) = true →
  show_num (of_Z 2) = "2" →
  py_str (Polynomial [of_Z 1; of_Z 2; of_Z 0]) = "({0})^2 + 2({0})"
  ∧ call (Polynomial [of_Z 1; of_Z 2; of_Z 0]) (OStr "x") = Ok (OStr "(x)^2 + 2(x)").
Proof.
  intros H10 H11 H20 H21 H00 Hs.
  assert (E : py_str (Polynomial [of_Z 1; of_Z 2; of_Z 0]) = "({0})^2 + 2({0})").
  { simpl. unfold poly_str, enumerate, poly_str_step, degree. simpl.
    rewrite H10, H11, H20, H21, H00, Hs. reflexivity. }
  split; [exact E|].
  unfold call, call_with. cbn [is_node is_str]. rewrite E. reflexivity.
Qed.

Lemma polynomial_render_example_witness :
  call (Fractions.poly [1; 2; 0]) (OStr "x") = Ok (OStr "(x)^2 + 2(x)").
Proof.
  apply (polynomial_render_example (N := Fractions.numeric)); reflexivity.
Defined.

(** C10.  For every Polynomial and every input that is neither a number
    nor a numpy array (a plain list, a string, [None], a node),
    [evaluate] returns [None]: both branches are skipped. *)
Theorem polynomial_evaluate_falls_through `{N : Numeric} (coeff : list num) (x : obj) :
  is_number x = false → is_ndarray x = false →
  evaluate (Polynomial coeff) x = Ok ONone.
Proof. intros Hn Ha. destruct x; simpl in *; congruence. Qed.

Lemma polynomial_evaluate_falls_through_witness :
  evaluate (Fractions.poly [1; 2; 0]) (OList (map Fractions.from_Z [1; 2])) = Ok ONone.
Proof.
  apply (polynomial_evaluate_falls_through (N := Fractions.numeric)); reflexivity.
Defined.

(** ** Newton's method *)

Section Newton.
Context `{N : Numeric}.

Lemma fmap_result_Ok {A B} (k : A → B) (m : result A) (b : B) :
  fmap_result k m = Ok b → ∃ a, m = Ok a ∧ b = k a.
Proof. destruct m; simpl; intros H; inversion H; eauto. Qed.

Lemma bind_result_Ok {A B} (k : A → result B) (m : result A) (b : B) :
  (m ≫= k) = Ok b → ∃ a, m = Ok a ∧ k a = Ok b.
Proof. destruct m; simpl; intros H; [eauto | discriminate]. Qed.

(** Called with a number or a string, a node answers with a number or a
    string: the Newton code never meets another kind of value, which is
    why [abs_gt] and [py_truediv] treat only these. *)
Lemma call_scalar_kind (f x r : obj) :
  is_scalar x = true → call f x = Ok r → is_scalar r = true.
Proof.
  revert x r. unfold call.
  induction f as [| | | | | coeff |f IHf g IHg|f IHf g IHg|f IHf g IHg|n| | | | |name];
    intros x r Hx H; try discriminate.
  - destruct x; try discriminate; simpl in H.
    + apply fmap_result_Ok in H as (? & _ & ->). reflexivity.
    + apply fmap_result_Ok in H as (? & _ & ->). reflexivity.
  - destruct x; try discriminate; cbn [call_with is_node] in H.
    + change (evaluate (Compose f g) (ONum v))
        with (y ← call_with (evaluate g) g (ONum v); call_with (evaluate f) f y) in H.
      apply bind_result_Ok in H as (y & Hy & H). eauto.
    + apply fmap_result_Ok in H as (? & _ & ->). reflexivity.
  - destruct x; try discriminate; cbn [call_with is_node] in H.
    + change (evaluate (Sum f g) (ONum v))
        with (a ← call_with (evaluate f) f (ONum v);
              b ← call_with (evaluate g) g (ONum v); py_add a b) in H.
      apply bind_result_Ok in H as (a & Ha & H).
      apply bind_result_Ok in H as (b & Hb & H).
      apply IHf in Ha; [|reflexivity]. apply IHg in Hb; [|reflexivity].
      destruct a, b; try discriminate; simpl in H; inversion H; reflexivity.
    + apply fmap_result_Ok in H as (? & _ & ->). reflexivity.
  - destruct x; try discriminate; cbn [call_with is_node] in H.
    + change (evaluate (Product f g) (ONum v))
        with (a ← call_with (evaluate f) f (ONum v);
              b ← call_with (evaluate g) g (ONum v); py_mul a b) in H.
      apply bind_result_Ok in H as (a & Ha & H).
      apply bind_result_Ok in H as (b & Hb & H).
      apply IHf in Ha; [|reflexivity]. apply IHg in Hb; [|reflexivity].
      destruct a, b; try discriminate; simpl in H;
        try (inversion H; reflexivity);
        destruct (nindex _); inversion H; reflexivity.
    + apply fmap_result_Ok in H as (? & _ & ->). reflexivity.
  - destruct x; try discriminate; simpl in H;
      first [apply fmap_result_Ok in H as (? & _ & ->) | inversion H]; reflexivity.
  - destruct x; try discriminate; simpl in H;
      first [apply fmap_result_Ok in H as (? & _ & ->) | inversion H]; reflexivity.
  - destruct x; try discriminate; simpl in H;
      first [apply fmap_result_Ok in H as (? & _ & ->) | inversion H]; reflexivity.
  - destruct x; try discriminate; simpl in H;
      first [apply fmap_result_Ok in H as (? & _ & ->) | inversion H]; reflexivity.
  - destruct x; try discriminate; simpl in H;
      first [apply fmap_result_Ok in H as (? & _ & ->) | inversion H]; reflexivity.
  - simpl in H. inversion H. reflexivity.
Qed.

Lemma evaluate_scalar_kind (f : obj) (v : num) (r : obj) :
  evaluate f (ONum v) = Ok r → is_scalar r = true.
Proof.
  intros H. destruct (is_node f) eqn:Hn; [destruct (is_symbolic f) eqn:Hs|].
  - destruct f; discriminate.
  - apply (call_scalar_kind f (ONum v)); [reflexivity|].
    destruct f; try discriminate; exact H.
  - destruct f; discriminate.
Qed.

(** A Symbolic has no [evaluate] of its own: had [newton_root] evaluated
    before its checks, the exception would be this one. *)
Lemma symbolic_evaluate (name : string) (x : obj) :
  evaluate (Symbolic name) x = Err (NotImplementedError "evaluate").
Proof. reflexivity. Qed.

(** What [newton_extremum] runs: [newton_root] on the derivative, with
    the default tolerance. *)
Lemma newton_extremum_unfold (fuel : nat) (f f' : obj) (x0 tol : num) :
  derivative f = Ok f' →
  newton_extremum fuel f x0 tol = newton_root fuel f' x0 tol_default.
Proof. intros H. unfold newton_extremum. now rewrite H. Qed.

End Newton.

(** C5.  For every [f] that is no expression node and every Symbolic [f],
    [newton_root(f, x0, tol)] raises ValueError at once: the run has made
    no call of [evaluate] and no round of the loop (it needs no fuel).  For
    every other node both checks pass and the run goes on to evaluate [f]
    at [x0]. *)
Theorem newton_root_checks `{N : Numeric} (fuel : nat) (f : obj) (x0 tol : num) :
  (is_node f = false →
   newton_root fuel f x0 tol
   = ([], Some (Err (ValueError "f must be an AbstractFunction"))))
  ∧ (is_symbolic f = true →
     newton_root fuel f x0 tol
     = ([], Some (Err (ValueError "f must not be a Symbolic"))))
  ∧ (is_node f = true → is_symbolic f = false →
     newton_check f = Ok ()
     ∧ newton_root fuel f x0 tol = newton_iterate fuel f x0 tol
     ∧ ∃ tr, (newton_root fuel f x0 tol).1 = Evaluated f x0 :: tr).
Proof.
  unfold newton_root, newton_check. split; [|split].
  - intros ->. reflexivity.
  - intros Hs. destruct f; try discriminate. reflexivity.
  - intros -> ->. simpl. split; [reflexivity|]. split; [reflexivity|].
    unfold newton_iterate. destruct (evaluate f (ONum x0)); simpl; eauto.
Qed.

Lemma newton_root_checks_witness :
  newton_root 0 (Symbolic "f") (Fractions.from_Z 1) (Fractions.from_Z 1)
  = ([], Some (Err (ValueError "f must not be a Symbolic")))
  ∧ newton_root 0 (Fractions.number 7) (Fractions.from_Z 1) (Fractions.from_Z 1)
    = ([], Some (Err (ValueError "f must be an AbstractFunction")))
  ∧ newton_check (Fractions.poly [1; 0; -4]) = Ok ().
Proof.
  split; [|split].
  - apply (newton_root_checks 0 (Symbolic "f")). reflexivity.
  - apply (newton_root_checks 0 (Fractions.number 7)). reflexivity.
  - apply (newton_root_checks 0 (Fractions.poly [1; 0; -4])
             (Fractions.from_Z 1) (Fractions.from_Z 1)); reflexivity.
Defined.

(** C4.  [newton_extremum(f, x0, tol)] does not pass its [tol] on: on
    [f = Polynomial(1,0,0)], [x0 = 1], [tol = 3],
    [newton_root(f.derivative(), 1, 3)] returns 1 without a Newton step
    ([|f'(1)| = 2] is within 3), while [newton_extremum(f, 1, 3)] iterates
    to the default tolerance and returns 0. *)
Theorem newton_extremum_ignores_tol (fuel : nat) :
  derivative (Fractions.poly [1; 0; 0]) = Ok (Fractions.poly [2; 0])
  ∧ (newton_root fuel (Fractions.poly [2; 0]) (Fractions.from_Z 1) (Fractions.from_Z 3)).2
    = Some (Ok (Fractions.from_Z 1))
  ∧ (newton_extremum (S fuel) (Fractions.poly [1; 0; 0]) (Fractions.from_Z 1)
       (Fractions.from_Z 3)).2
    = Some (Ok (Fractions.from_Z 0)).
Proof.
  split; [reflexivity|]. split; destruct fuel; reflexivity.
Qed.

(** [newton_extremum(Polynomial(1,0,0), 1, 1e-8)] finds the minimum of
    [x^2] at 0. *)
Example newton_extremum_square :
  (newton_extremum 1 (Fractions.poly [1; 0; 0]) (Fractions.from_Z 1) tol_default).2
  = Some (Ok (Fractions.from_Z 0)).
Proof. reflexivity. Qed.

(** ** Polynomial addition *)

Section Addition.
Context `{L : NumericLaws}.

Lemma add_aligned_left_comm (a b : list num) :
  add_aligned_left a b = add_aligned_left b a.
Proof.
  revert b. induction a as [|x a IH]; intros [|y b]; simpl; try reflexivity.
  now rewrite IH, nadd_comm.
Qed.

Lemma right_aligned_sum_comm (a b : list num) :
  right_aligned_sum a b = right_aligned_sum b a.
Proof. unfold right_aligned_sum. now rewrite add_aligned_left_comm. Qed.

Lemma add_aligned_left_zip (a b : list num) :
  (length b ≤ length a)%nat →
  add_aligned_left a b = zip_with nadd (take (length b) a) b ++ drop (length b) a.
Proof.
  revert b. induction a as [|x a IH]; intros [|y b] Hlen; simpl in *;
    try reflexivity; try lia.
  rewrite IH by lia. reflexivity.
Qed.

Lemma rev_zip_with (a b : list num) :
  length a = length b →
  rev (zip_with nadd a b) = zip_with nadd (rev a) (rev b).
Proof.
  revert b. induction a as [|x a IH]; intros [|y b] Hlen; simpl in *;
    try reflexivity; try lia.
  rewrite zip_with_app by (rewrite !length_rev; lia).
  rewrite IH by lia. reflexivity.
Qed.

(** The in-place sum of a shorter array into the tail of a longer one is
    the right-aligned sum. *)
Lemma tail_sum_right_aligned (hi lo : list num) :
  (length lo ≤ length hi)%nat →
  take (length hi - length lo) hi ++ zip_with nadd (drop (length hi - length lo) hi) lo
  = right_aligned_sum hi lo.
Proof.
  intros Hlen. unfold right_aligned_sum.
  rewrite add_aligned_left_zip by (rewrite !length_rev; lia).
  rewrite rev_app_distr, !length_rev, firstn_rev, skipn_rev.
  rewrite rev_involutive. f_equal.
  rewrite rev_zip_with, !rev_involutive; [reflexivity|].
  rewrite !length_rev, length_drop. lia.
Qed.

Lemma slice_iadd_tail (hi lo : list num) :
  lo ≠ [] → (length lo ≤ length hi)%nat →
  slice_iadd hi (degree lo + 1) lo
  = Ok (take (length hi - length lo) hi
        ++ zip_with nadd (drop (length hi - length lo) hi) lo).
Proof.
  intros Hne Hlen. unfold slice_iadd, slice_start, degree.
  assert (0 < length lo)%nat by (destruct lo; [congruence | simpl; lia]).
  destruct (Z.eqb_spec (Z.of_nat (length lo) - 1 + 1) 0) as [E|_]; [lia|].
  replace (Z.to_nat (Z.max 0 (Z.of_nat (length hi) - (Z.of_nat (length lo) - 1 + 1))))
    with (length hi - length lo)%nat by lia.
  rewrite length_drop.
  replace (length hi - (length hi - length lo))%nat with (length lo) by lia.
  now rewrite Nat.eqb_refl.
Qed.

Lemma zip_with_nadd_fixed (a b : list num) :
  length a = length b →
  zip_with nadd a b = a ↔ Forall (λ c, c = of_Z 0) b.
Proof.
  revert b. induction a as [|x a IH]; intros [|y b] Hlen; simpl in *; try lia.
  - split; [constructor | reflexivity].
  - split.
    + intros H. inversion H as [[Hx Ha]]. constructor.
      * now apply nadd_cancel_zero in Hx.
      * apply IH; [lia | exact Ha].
    + intros H. inversion H as [|? ? Hy Hb]; subst. f_equal.
      * now apply nadd_cancel_zero.
      * apply IH; [lia | exact Hb].
Qed.

(** [add_into] on a longer-or-equal array [a] and a non-empty array [b]. *)
Lemma add_into_spec (σ : gmap PolyStore.loc (list num)) (a b : PolyStore.loc)
    (ca cb : list num) :
  σ !! a = Some ca → σ !! b = Some cb →
  cb ≠ [] → (length cb ≤ length ca)%nat →
  ∃ r σ',
    PolyStore.add_into σ a b = Ok (r, σ')
    ∧ σ !! r = None
    ∧ σ' !! r = Some (right_aligned_sum ca cb)
    ∧ σ' !! a = Some (right_aligned_sum ca cb)
    ∧ (∀ l, l ≠ r → l ≠ a → σ' !! l = σ !! l)
    ∧ (σ' !! a = σ !! a ↔ Forall (λ c, c = of_Z 0) cb).
Proof.
  intros Ha Hb Hne Hlen. unfold PolyStore.add_into. rewrite Ha, Hb.
  rewrite slice_iadd_tail by assumption. simpl. unfold PolyStore.alloc.
  set (s := take _ ca ++ _).
  set (σ1 := <[a := s]> σ).
  assert (Hfresh : fresh (dom σ1) ∉ dom σ1) by apply is_fresh.
  assert (Hr1 : σ1 !! fresh (dom σ1) = None) by (now apply not_elem_of_dom).
  assert (Hra : fresh (dom σ1) ≠ a).
  { intros E. rewrite E in Hr1. unfold σ1 in Hr1 at 1.
    rewrite lookup_insert_eq in Hr1. discriminate. }
  assert (Hs : s = right_aligned_sum ca cb) by (now apply tail_sum_right_aligned).
  exists (fresh (dom σ1)), (<[fresh (dom σ1) := s]> σ1).
  split; [reflexivity|]. split; [|split; [|split; [|split]]].
  - rewrite <- (lookup_insert_ne σ a (fresh (dom σ1)) s) by congruence.
    exact Hr1.
  - now rewrite lookup_insert_eq, Hs.
  - rewrite lookup_insert_ne by exact Hra. unfold σ1.
    now rewrite lookup_insert_eq, Hs.
  - intros l Hl1 Hl2. rewrite lookup_insert_ne by congruence.
    unfold σ1. now rewrite lookup_insert_ne by congruence.
  - rewrite lookup_insert_ne by exact Hra. unfold σ1.
    rewrite lookup_insert_eq. unfold s.
    rewrite <- (zip_with_nadd_fixed (drop (length ca - length cb) ca) cb)
      by (rewrite length_drop; lia).
    split.
    + intros H. apply (app_inv_head (take (length ca - length cb) ca)).
      rewrite take_drop. congruence.
    + intros H. rewrite H. now rewrite take_drop.
Qed.

End Addition.




(** * Further properties *)

(** ** The values of sums and products of polynomials *)

Section CoefficientAlgebra.
Context `{L : NumericLaws}.

Add Ring num_ring_coeffs : num_semi_ring.

Lemma pow_nat_add (x : num) (m n : nat) :
  pow_nat x (m + n) = pow_nat x m ⊗ pow_nat x n.
Proof.
  induction m as [|m IH]; simpl.
  - ring.
  - rewrite IH. ring.
Qed.

Lemma hsum_app (a b : list num) (x : num) :
  hsum (a ++ b) x = pow_nat x (length b) ⊗ hsum a x ⊕ hsum b x.
Proof.
  induction a as [|c a IH]; simpl.
  - ring.
  - rewrite IH, length_app, pow_nat_add. ring.
Qed.

Lemma hsum_zip_with (u v : list num) (x : num) :
  length u = length v →
  hsum (zip_with nadd u v) x = hsum u x ⊕ hsum v x.
Proof.
  revert v. induction u as [|a u IH]; intros [|b v] Hlen; simpl in *; try lia.
  - ring.
  - rewrite IH by lia. rewrite length_zip_with.
    replace (length u `min` length v)%nat with (length v) by lia.
    replace (length u) with (length v) by lia. ring.
Qed.

Lemma hsum_map_mul (c : num) (b : list num) (x : num) :
  hsum (map (nmul c) b) x = c ⊗ hsum b x.
Proof.
  induction b as [|y b IH]; simpl.
  - ring.
  - rewrite IH, length_map. ring.
Qed.

Lemma hsum_zeros {A} (a : list A) (x : num) :
  hsum (map (λ _, of_Z 0) a) x = of_Z 0.
Proof.
  induction a as [|y a IH]; simpl; [reflexivity|]. rewrite IH. ring.
Qed.

Lemma hsum_right_aligned_sum (a b : list num) (x : num) :
  hsum (right_aligned_sum a b) x = hsum a x ⊕ hsum b x.
Proof.
  assert (H : ∀ hi lo, (length lo ≤ length hi)%nat →
              hsum (right_aligned_sum hi lo) x = hsum hi x ⊕ hsum lo x).
  { intros hi lo Hlen. rewrite <- tail_sum_right_aligned by exact Hlen.
    rewrite hsum_app, hsum_zip_with by (rewrite length_drop; lia).
    assert (E : hsum hi x
                = pow_nat x (length (drop (length hi - length lo) hi))
                  ⊗ hsum (take (length hi - length lo) hi) x
                  ⊕ hsum (drop (length hi - length lo) hi) x)
      by (now rewrite <- hsum_app, take_drop).
    rewrite E, length_zip_with, !length_drop.
    replace ((length hi - (length hi - length lo)) `min` length lo)%nat
      with (length hi - (length hi - length lo))%nat by lia.
    ring. }
  destruct (Nat.le_ge_cases (length b) (length a)) as [Hle|Hle].
  - now apply H.
  - rewrite right_aligned_sum_comm, H by exact Hle. ring.
Qed.

(** The coefficients [Polynomial.__add__] computes are those of the sum. *)
Lemma poly_add_coeffs_value (ca cb c : list num) (x : num) :
  poly_add_coeffs ca cb = Ok c → hsum c x = hsum ca x ⊕ hsum cb x.
Proof.
  assert (H : ∀ hi lo, (length lo ≤ length hi)%nat →
              slice_iadd hi (degree lo + 1) lo = Ok c →
              hsum c x = hsum hi x ⊕ hsum lo x).
  { intros hi lo Hlen Hs. destruct (decide (lo = [])) as [->|Hne].
    - unfold slice_iadd, slice_start, degree in Hs. simpl in Hs.
      rewrite drop_0 in Hs. destruct hi as [|h hi]; simpl in Hs.
      + inversion Hs. simpl. ring.
      + discriminate.
    - rewrite slice_iadd_tail in Hs by assumption. inversion Hs.
      rewrite tail_sum_right_aligned by exact Hlen.
      apply hsum_right_aligned_sum. }
  unfold poly_add_coeffs, degree. intros Hc.
  destruct (Z.gtb_spec (Z.of_nat (length ca) - 1) (Z.of_nat (length cb) - 1)).
  - apply H; [lia | exact Hc].
  - rewrite (H cb ca) by (first [lia | exact Hc]). ring.
Qed.

Lemma hsum_trim_zeros (a : list num) (x : num) :
  (∀ u v : num, neqb u v = true → u = v) →
  hsum (trim_zeros a) x = hsum a x.
Proof.
  intros Heq. induction a as [|c a IH]; [reflexivity|]. simpl.
  destruct (neqb c (of_Z 0)) eqn:E; [|reflexivity].
  apply Heq in E. subst. rewrite IH. ring.
Qed.

Lemma hsum_poly1d (a : list num) (x : num) :
  (∀ u v : num, neqb u v = true → u = v) →
  hsum (poly1d a) x = hsum a x.
Proof.
  intros Heq. unfold poly1d. rewrite <- (hsum_trim_zeros a x Heq).
  destruct (trim_zeros a); [simpl; ring | reflexivity].
Qed.

Lemma poly1d_nonempty (a : list num) : poly1d a ≠ [].
Proof. unfold poly1d. destruct (trim_zeros a); discriminate. Qed.

Lemma length_add_aligned_left (u v : list num) :
  length (add_aligned_left u v) = (length u `max` length v)%nat.
Proof.
  revert v. induction u as [|a u IH]; intros [|b v]; simpl; try reflexivity.
  now rewrite IH.
Qed.

Lemma length_convolve (a b : list num) :
  a ≠ [] → b ≠ [] → length (convolve a b) = (length a + length b - 1)%nat.
Proof.
  intros Ha Hb.
  assert (0 < length b)%nat by (destruct b; [congruence | simpl; lia]).
  induction a as [|c a IH]; [congruence|].
  destruct a as [|c' a'].
  - simpl. rewrite length_map. lia.
  - change (convolve (c :: c' :: a') b)
      with (add_aligned_left (map (nmul c) b ++ map (λ _, of_Z 0) (c' :: a'))
                             (of_Z 0 :: convolve (c' :: a') b)).
    rewrite length_add_aligned_left, length_app, !length_map. cbn [length].
    rewrite IH by discriminate. cbn [length]. lia.
Qed.

(** Convolution multiplies the values. *)
Lemma hsum_convolve (a b : list num) (x : num) :
  b ≠ [] → hsum (convolve a b) x = hsum a x ⊗ hsum b x.
Proof.
  intros Hb.
  assert (0 < length b)%nat by (destruct b; [congruence | simpl; lia]).
  induction a as [|c a IH]; [simpl; ring|].
  destruct a as [|c' a'].
  - simpl. rewrite hsum_map_mul. ring.
  - change (convolve (c :: c' :: a') b)
      with (add_aligned_left (map (nmul c) b ++ map (λ _, of_Z 0) (c' :: a'))
                             (of_Z 0 :: convolve (c' :: a') b)).
    set (a := c' :: a') in *.
    assert (Hlen : length (of_Z 0 :: convolve a b)
                   = length (map (nmul c) b ++ map (λ _, of_Z 0) a)).
    { cbn [length]. rewrite length_convolve, length_app, !length_map
        by (subst a; first [discriminate | assumption]).
      subst a. cbn [length]. lia. }
    rewrite add_aligned_left_zip by lia.
    rewrite Hlen, firstn_all, skipn_all, app_nil_r.
    rewrite hsum_zip_with by lia.
    rewrite hsum_app, hsum_map_mul, hsum_zeros, length_map.
    cbn [hsum]. rewrite IH.
    rewrite length_convolve by (subst a; first [discriminate | assumption]).
    cbn [hsum]. ring.
Qed.

End CoefficientAlgebra.

(** ** The arithmetic operators on nodes *)

Section OperatorValues.
Context `{L : NumericLaws}.

Add Ring num_ring_ops : num_semi_ring.

(** What [f + g] returns for a node [f]. *)
Lemma py_add_node (f g s : obj) :
  is_node f = true → py_add f g = Ok s →
  (∃ ca cb c, f = Polynomial ca ∧ g = Polynomial cb
              ∧ poly_add_coeffs ca cb = Ok c ∧ s = Polynomial c)
  ∨ s = Sum f g.
Proof.
  intros Hf H. destruct f; try discriminate; destruct g; simpl in H;
    try (right; congruence).
  left. apply fmap_result_Ok in H as (c & Hc & ->). eauto 10.
Qed.

(** What [f * g] returns for a node [f]. *)
Lemma py_mul_node (f g s : obj) :
  is_node f = true → py_mul f g = Ok s →
  (∃ ca cb, f = Polynomial ca ∧ g = Polynomial cb ∧ s = Polynomial (polymul ca cb))
  ∨ s = Product f g.
Proof.
  intros Hf H. destruct f; try discriminate; destruct g; simpl in H;
    try (right; congruence).
  left. inversion H. eauto 10.
Qed.

Lemma evaluate_sum_numbers (f g : obj) (x a b : num) :
  is_node f = true → is_symbolic f = false →
  is_node g = true → is_symbolic g = false →
  evaluate f (ONum x) = Ok (ONum a) → evaluate g (ONum x) = Ok (ONum b) →
  evaluate (Sum f g) (ONum x) = Ok (ONum (a ⊕ b)).
Proof.
  intros Hf Hfs Hg Hgs Ea Eb.
  change (evaluate (Sum f g) (ONum x))
    with (u ← call f (ONum x); v ← call g (ONum x); py_add u v).
  now rewrite (call_number f x Hf Hfs), (call_number g x Hg Hgs), Ea, Eb.
Qed.

Lemma evaluate_product_numbers (f g : obj) (x a b : num) :
  is_node f = true → is_symbolic f = false →
  is_node g = true → is_symbolic g = false →
  evaluate f (ONum x) = Ok (ONum a) → evaluate g (ONum x) = Ok (ONum b) →
  evaluate (Product f g) (ONum x) = Ok (ONum (a ⊗ b)).
Proof.
  intros Hf Hfs Hg Hgs Ea Eb.
  change (evaluate (Product f g) (ONum x))
    with (u ← call f (ONum x); v ← call g (ONum x); py_mul u v).
  now rewrite (call_number f x Hf Hfs), (call_number g x Hg Hgs), Ea, Eb.
Qed.

Lemma evaluate_compose_numbers (f g : obj) (x a b : num) :
  is_node f = true → is_symbolic f = false →
  is_node g = true → is_symbolic g = false →
  evaluate g (ONum x) = Ok (ONum b) → evaluate f (ONum b) = Ok (ONum a) →
  evaluate (Compose f g) (ONum x) = Ok (ONum a).
Proof.
  intros Hf Hfs Hg Hgs Eb Ea.
  change (evaluate (Compose f g) (ONum x))
    with (y ← call g (ONum x); call f y).
  rewrite (call_number g x Hg Hgs), Eb. simpl.
  now rewrite (call_number f b Hf Hfs).
Qed.

End OperatorValues.

(** X1.  For nodes [f] and [g] that are not Symbolic, the node [f + g]
    returns (a Polynomial for two Polynomials, a Sum otherwise) evaluates
    at a number, in exact arithmetic, to the sum of the values [f] and [g]
    have there when the operator is called. *)
Theorem add_evaluates_to_sum `{L : NumericLaws} (f g s : obj) (x a b : num) :
  is_node f = true → is_symbolic f = false →
  is_node g = true → is_symbolic g = false →
  py_add f g = Ok s →
  evaluate f (ONum x) = Ok (ONum a) → evaluate g (ONum x) = Ok (ONum b) →
  evaluate s (ONum x) = Ok (ONum (a ⊕ b)).
Proof.
  intros Hf Hfs Hg Hgs Hadd Ea Eb.
  destruct (py_add_node f g s Hf Hadd) as [(ca & cb & c & -> & -> & Hc & ->)| ->].
  - rewrite evaluate_polynomial_hsum in Ea, Eb |- *.
    inversion Ea; inversion Eb; subst.
    now rewrite (poly_add_coeffs_value ca cb c x Hc).
  - now apply evaluate_sum_numbers.
Qed.

Lemma add_evaluates_to_sum_witness :
  py_add (Fractions.poly [1; 2; 3]) (Fractions.poly [4; 5]) = Ok (Fractions.poly [1; 6; 8])
  ∧ evaluate (Fractions.poly [1; 6; 8]) (Fractions.number 2)
    = Ok (ONum (Fractions.from_Z 11 ⊕ Fractions.from_Z 13)).
Proof.
  split; [reflexivity|].
  apply (add_evaluates_to_sum (L := FractionsLaws.laws)
           (Fractions.poly [1; 2; 3]) (Fractions.poly [4; 5]) (Fractions.poly [1; 6; 8])
           (Fractions.from_Z 2) (Fractions.from_Z 11) (Fractions.from_Z 13));
    reflexivity.
Defined.

(** X2.  For nodes [f] and [g] that are not Symbolic, the node [f * g]
    returns (the convolved Polynomial for two Polynomials, a Product
    otherwise) evaluates at a number, in exact arithmetic with an [==] that
    holds only of equal numbers, to the product of the values of [f] and
    [g]. *)
Theorem mul_evaluates_to_product `{L : NumericLaws} (f g s : obj) (x a b : num) :
  (∀ u v : num, neqb u v = true → u = v) →
  is_node f = true → is_symbolic f = false →
  is_node g = true → is_symbolic g = false →
  py_mul f g = Ok s →
  evaluate f (ONum x) = Ok (ONum a) → evaluate g (ONum x) = Ok (ONum b) →
  evaluate s (ONum x) = Ok (ONum (a ⊗ b)).
Proof.
  intros Heq Hf Hfs Hg Hgs Hmul Ea Eb.
  destruct (py_mul_node f g s Hf Hmul) as [(ca & cb & -> & -> & ->)| ->].
  - rewrite evaluate_polynomial_hsum in Ea, Eb |- *.
    inversion Ea; inversion Eb; subst. unfold polymul.
    rewrite hsum_convolve by apply poly1d_nonempty.
    now rewrite !hsum_poly1d by exact Heq.
  - now apply evaluate_product_numbers.
Qed.

Lemma mul_evaluates_to_product_witness :
  py_mul (Fractions.poly [0; 1; 2]) (Fractions.poly [1; -3]) = Ok (Fractions.poly [1; -1; -6])
  ∧ evaluate (Fractions.poly [1; -1; -6]) (Fractions.number 2)
    = Ok (ONum (Fractions.from_Z 4 ⊗ Fractions.from_Z (-1))).
Proof.
  split; [reflexivity|].
  apply (mul_evaluates_to_product (L := FractionsLaws.laws)
           (Fractions.poly [0; 1; 2]) (Fractions.poly [1; -3]) (Fractions.poly [1; -1; -6])
           (Fractions.from_Z 2) (Fractions.from_Z 4) (Fractions.from_Z (-1)));
    first [exact FractionsLaws.neqb_eq | reflexivity].
Defined.

Section ConstructorValues.
Context `{L : NumericLaws}.

Add Ring num_ring_values : num_semi_ring.

Lemma affine_value (a b x : num) :
  evaluate (Affine a b) (ONum x) = Ok (ONum (a ⊗ x ⊕ b)).
Proof.
  unfold Affine. rewrite evaluate_polynomial_hsum. do 2 f_equal. simpl. ring.
Qed.

Lemma scale_value (a x : num) : evaluate (Scale a) (ONum x) = Ok (ONum (a ⊗ x)).
Proof.
  unfold Scale. rewrite evaluate_polynomial_hsum. do 2 f_equal. simpl. ring.
Qed.

Lemma constant_value (c x : num) : evaluate (Constant c) (ONum x) = Ok (ONum c).
Proof.
  unfold Constant. rewrite evaluate_polynomial_hsum. do 2 f_equal. simpl. ring.
Qed.

Lemma affine_derivative_value (a b x : num) :
  (d ← derivative (Affine a b); evaluate d (ONum x)) = Ok (ONum a).
Proof.
  change (evaluate (Polynomial [a ⊗ of_Z 1]) (ONum x) = Ok (ONum a)).
  rewrite evaluate_polynomial_hsum. do 2 f_equal. simpl. ring.
Qed.

Lemma constant_derivative_value (c x : num) :
  (d ← derivative (Constant c); evaluate d (ONum x)) = Ok (ONum (of_Z 0)).
Proof.
  change (evaluate (Polynomial [of_Z 0]) (ONum x) = Ok (ONum (of_Z 0))).
  rewrite evaluate_polynomial_hsum. do 2 f_equal. simpl. ring.
Qed.

Lemma power_derivative_value (n x : num) :
  (d ← derivative (Power n); evaluate d (ONum x))
  = (p ← npow x (n ⊖ of_Z 1); Ok (ONum (n ⊗ p))).
Proof.
  change ((u ← evaluate (Constant n) (ONum x);
           v ← fmap_result ONum (npow x (n ⊖ of_Z 1)); py_mul u v)
          = (p ← npow x (n ⊖ of_Z 1); Ok (ONum (n ⊗ p)))).
  rewrite constant_value. destruct (npow x (n ⊖ of_Z 1)); reflexivity.
Qed.

Lemma cos_derivative_value (x : num) :
  (d ← derivative Cos; evaluate d (ONum x))
  = (s ← nsin x; Ok (ONum (of_Z (-1) ⊗ s))).
Proof.
  change ((u ← evaluate (Constant (of_Z (-1))) (ONum x);
           v ← fmap_result ONum (nsin x); py_mul u v)
          = (s ← nsin x; Ok (ONum (of_Z (-1) ⊗ s)))).
  rewrite constant_value. destruct (nsin x); reflexivity.
Qed.

End ConstructorValues.

(** X3.  In exact arithmetic [Affine(a,b)] evaluates to [a*x + b],
    [Scale(a)] to [a*x] and [Constant(c)] to [c]; the derivative of
    [Affine(a,b)] and of [Scale(a)] evaluates to [a] and that of
    [Constant(c)] to 0, at every number. *)
Theorem affine_scale_constant_values `{L : NumericLaws} (a b x : num) :
  evaluate (Affine a b) (ONum x) = Ok (ONum (a ⊗ x ⊕ b))
  ∧ evaluate (Scale a) (ONum x) = Ok (ONum (a ⊗ x))
  ∧ evaluate (Constant a) (ONum x) = Ok (ONum a)
  ∧ (d ← derivative (Affine a b); evaluate d (ONum x)) = Ok (ONum a)
  ∧ (d ← derivative (Scale a); evaluate d (ONum x)) = Ok (ONum a)
  ∧ (d ← derivative (Constant a); evaluate d (ONum x)) = Ok (ONum (of_Z 0)).
Proof.
  repeat split.
  - apply affine_value.
  - apply scale_value.
  - apply constant_value.
  - apply affine_derivative_value.
  - apply (affine_derivative_value a (of_Z 0)).
  - apply constant_derivative_value.
Qed.

Lemma affine_scale_constant_values_witness :
  evaluate (Affine (Fractions.from_Z 2) (Fractions.from_Z 1)) (Fractions.number 3)
  = Ok (ONum (Fractions.from_Z 2 ⊗ Fractions.from_Z 3 ⊕ Fractions.from_Z 1)).
Proof.
  exact (proj1 (affine_scale_constant_values (L := FractionsLaws.laws)
                  (Fractions.from_Z 2) (Fractions.from_Z 1) (Fractions.from_Z 3))).
Defined.

(** X4.  The derivatives of the elementary nodes, evaluated at a number
    [x] in exact arithmetic: [Power(n)] gives [n * x**(n-1)], [Log] gives
    [x**-1], [Exponential] gives [exp(x)], [Sin] gives [cos(x)] and [Cos]
    gives [-1 * sin(x)]; an exception of the power or of the numpy function
    is the exception of the evaluation. *)
Theorem elementary_derivative_values `{L : NumericLaws} (n x : num) :
  (d ← derivative (Power n); evaluate d (ONum x))
  = (p ← npow x (n ⊖ of_Z 1); Ok (ONum (n ⊗ p)))
  ∧ (d ← derivative Log; evaluate d (ONum x))
    = (p ← npow x (of_Z (-1)); Ok (ONum p))
  ∧ (d ← derivative Exponential; evaluate d (ONum x))
    = (e ← nexp x; Ok (ONum e))
  ∧ (d ← derivative Sin; evaluate d (ONum x))
    = (c ← ncos x; Ok (ONum c))
  ∧ (d ← derivative Cos; evaluate d (ONum x))
    = (s ← nsin x; Ok (ONum (of_Z (-1) ⊗ s))).
Proof.
  split; [apply power_derivative_value|].
  split; [reflexivity|]. split; [reflexivity|]. split; [reflexivity|].
  apply cos_derivative_value.
Qed.

Lemma elementary_derivative_values_witness :
  (d ← derivative (Power (Fractions.from_Z 3)); evaluate d (Fractions.number 2))
  = Ok (Fractions.number 12).
Proof.
  etransitivity;
    [exact (proj1 (elementary_derivative_values (L := FractionsLaws.laws)
                     (Fractions.from_Z 3) (Fractions.from_Z 2)))
    | reflexivity].
Defined.

(** X5.  For a node [f] that is not Symbolic and has a numeric value at
    [x], [-f] is [Compose(Scale(-1), f)] and evaluates, in exact
    arithmetic, to [-1] times that value. *)
Theorem neg_evaluates_to_minus `{L : NumericLaws} (f : obj) (x a : num) :
  is_node f = true → is_symbolic f = false →
  evaluate f (ONum x) = Ok (ONum a) →
  node_neg f = Ok (Compose (Scale (of_Z (-1))) f)
  ∧ evaluate (Compose (Scale (of_Z (-1))) f) (ONum x) = Ok (ONum (of_Z (-1) ⊗ a)).
Proof.
  intros Hf Hfs Ea. split.
  - unfold node_neg. now apply call_node.
  - apply (evaluate_compose_numbers _ f x _ a); try assumption; try reflexivity.
    apply scale_value.
Qed.

Lemma neg_evaluates_to_minus_witness :
  evaluate (Compose (Scale (Fractions.from_Z (-1))) (Fractions.poly [1; 0; -4]))
           (Fractions.number 3)
  = Ok (ONum (Fractions.from_Z (-1) ⊗ Fractions.from_Z 5)).
Proof.
  apply (neg_evaluates_to_minus (L := FractionsLaws.laws)
           (Fractions.poly [1; 0; -4]) (Fractions.from_Z 3) (Fractions.from_Z 5));
    reflexivity.
Defined.

(** X6.  For nodes [f] and [g] that are not Symbolic, with numeric values
    [a] and [b] at [x]: [f / g] is [Product(f, Compose(Power(-1), g))] and
    evaluates to [a * b**-1], and [f ** n] is [Compose(Power(n), f)] and
    evaluates to [a ** n]; an exception of [**] is the exception of the
    evaluation. *)
Theorem truediv_and_pow_values `{N : Numeric} (f g : obj) (n x a b : num) :
  is_node f = true → is_symbolic f = false →
  is_node g = true → is_symbolic g = false →
  evaluate f (ONum x) = Ok (ONum a) → evaluate g (ONum x) = Ok (ONum b) →
  (∃ d, node_truediv f g = Ok d
        ∧ evaluate d (ONum x) = (p ← npow b (of_Z (-1)); Ok (ONum (a ⊗ p))))
  ∧ node_pow f n = Ok (Compose (Power n) f)
  ∧ evaluate (Compose (Power n) f) (ONum x) = (p ← npow a n; Ok (ONum p)).
Proof.
  intros Hf Hfs Hg Hgs Ea Eb. split; [|split].
  - unfold node_truediv.
    assert (Hp : py_pow g (of_Z (-1)) = Ok (Compose (Power (of_Z (-1))) g))
      by (destruct g; try discriminate; reflexivity).
    rewrite Hp. simpl.
    assert (Hm : py_mul f (Compose (Power (of_Z (-1))) g)
                 = Ok (Product f (Compose (Power (of_Z (-1))) g)))
      by (destruct f; try discriminate; reflexivity).
    rewrite Hm. eexists. split; [reflexivity|].
    change (evaluate (Product f (Compose (Power (of_Z (-1))) g)) (ONum x))
      with (u ← call f (ONum x);
            v ← (y ← call g (ONum x); call (Power (of_Z (-1))) y);
            py_mul u v).
    rewrite (call_number f x Hf Hfs), (call_number g x Hg Hgs), Ea, Eb. simpl.
    destruct (npow b (of_Z (-1))); reflexivity.
  - unfold node_pow. now apply call_node.
  - change (evaluate (Compose (Power n) f) (ONum x))
      with (y ← call f (ONum x); call (Power n) y).
    rewrite (call_number f x Hf Hfs), Ea. simpl.
    destruct (npow a n); reflexivity.
Qed.

Lemma truediv_and_pow_values_witness :
  evaluate (Compose (Power (Fractions.from_Z 2)) (Fractions.poly [1; 1]))
           (Fractions.number 3)
  = (p ← npow (Fractions.from_Z 4) (Fractions.from_Z 2); Ok (ONum p)).
Proof.
  apply (truediv_and_pow_values (Fractions.poly [1; 1]) (Fractions.poly [2])
           (Fractions.from_Z 2) (Fractions.from_Z 3) (Fractions.from_Z 4)
           (Fractions.from_Z 2)); reflexivity.
Defined.

(** ** Differentiation rules *)

(** X7.  For nodes [f] and [g] that are not Symbolic, with derivatives
    [f'] and [g'] that have numeric values [a] and [b] at [x], the
    derivative of [Sum(f,g)] is [Sum(f',g')] and evaluates to [a + b]. *)
Theorem sum_rule `{N : Numeric} (f g f' g' : obj) (x a b : num) :
  is_symbolic f = false → is_symbolic g = false →
  derivative f = Ok f' → derivative g = Ok g' →
  evaluate f' (ONum x) = Ok (ONum a) → evaluate g' (ONum x) = Ok (ONum b) →
  derivative (Sum f g) = Ok (Sum f' g')
  ∧ evaluate (Sum f' g') (ONum x) = Ok (ONum (a ⊕ b)).
Proof.
  intros Hfs Hgs Df Dg Ea Eb.
  destruct (sum_derivative_evaluate f g f' g' x Hfs Hgs Df Dg) as [Hd He].
  split; [exact Hd|]. now rewrite He, Ea, Eb.
Qed.

Lemma sum_rule_witness :
  derivative (Sum (Fractions.poly [1; 0; 0]) (Fractions.poly [3; 1]))
  = Ok (Sum (Fractions.poly [2; 0]) (Fractions.poly [3]))
  ∧ evaluate (Sum (Fractions.poly [2; 0]) (Fractions.poly [3])) (Fractions.number 5)
    = Ok (ONum (Fractions.from_Z 10 ⊕ Fractions.from_Z 3)).
Proof.
  apply (sum_rule (Fractions.poly [1; 0; 0]) (Fractions.poly [3; 1])
           (Fractions.poly [2; 0]) (Fractions.poly [3])
           (Fractions.from_Z 5) (Fractions.from_Z 10) (Fractions.from_Z 3));
    reflexivity.
Defined.

(** X8.  The product rule: for nodes [f] and [g] that are not Symbolic,
    with numeric values [u] and [v] at [x] and derivatives of numeric
    values [a] and [b] there, the derivative of [Product(f,g)] is
    [Sum(Product(f',g), Product(f,g'))] and evaluates to [a*v + u*b]. *)
Theorem product_rule `{N : Numeric} (f g f' g' : obj) (x u v a b : num) :
  is_node f = true → is_symbolic f = false →
  is_node g = true → is_symbolic g = false →
  derivative f = Ok f' → derivative g = Ok g' →
  evaluate f (ONum x) = Ok (ONum u) → evaluate g (ONum x) = Ok (ONum v) →
  evaluate f' (ONum x) = Ok (ONum a) → evaluate g' (ONum x) = Ok (ONum b) →
  derivative (Product f g) = Ok (Sum (Product f' g) (Product f g'))
  ∧ evaluate (Sum (Product f' g) (Product f g')) (ONum x)
    = Ok (ONum (a ⊗ v ⊕ u ⊗ b)).
Proof.
  intros Hf Hfs Hg Hgs Df Dg Eu Ev Ea Eb.
  destruct (product_derivative_evaluate f g f' g' x Hf Hfs Hg Hgs Df Dg) as [Hd He].
  split; [exact Hd|]. now rewrite He, Ea, Eb, Eu, Ev.
Qed.

Lemma product_rule_witness :
  evaluate (Sum (Product (Fractions.poly [2; 0]) (Fractions.poly [3; 1]))
                (Product (Fractions.poly [1; 0; 0]) (Fractions.poly [3])))
           (Fractions.number 2)
  = Ok (ONum (Fractions.from_Z 4 ⊗ Fractions.from_Z 7
              ⊕ Fractions.from_Z 4 ⊗ Fractions.from_Z 3)).
Proof.
  apply (product_rule (Fractions.poly [1; 0; 0]) (Fractions.poly [3; 1])
           (Fractions.poly [2; 0]) (Fractions.poly [3])
           (Fractions.from_Z 2) (Fractions.from_Z 4) (Fractions.from_Z 7)
           (Fractions.from_Z 4) (Fractions.from_Z 3));
    reflexivity.
Defined.

Section DerivativeTotal.
Context `{N : Numeric}.

Lemma poly_derivative_total (coeff : list num) :
  ∃ c, poly_derivative coeff = Ok c
       ∧ length c = (if (length coeff =? 1)%nat then 1 else length coeff - 1)%nat.
Proof.
  unfold poly_derivative.
  destruct (Nat.eqb_spec (length coeff) 1) as [E|E]; [eauto|].
  unfold broadcast2, degree_weights, degree.
  assert (Hw : length (map (λ n : nat, of_Z (Z.of_nat n + 1))
                          (rev (seq 0 (Z.to_nat (Z.of_nat (length coeff) - 1)))))
               = (length coeff - 1)%nat)
    by (rewrite length_map, length_rev, length_seq; lia).
  assert (Hr : length (removelast coeff) = (length coeff - 1)%nat)
    by (rewrite removelast_firstn_len, length_take; lia).
  rewrite Hw, Hr, Nat.eqb_refl. eexists. split; [reflexivity|].
  rewrite length_zip_with, Hw, Hr. lia.
Qed.

Lemma iter_derivative_polynomial (n : nat) (coeff : list num) :
  length coeff = S n →
  iter_derivative (S n) (Polynomial coeff) = Ok (Polynomial [of_Z 0]).
Proof.
  revert coeff. induction n as [|n IH]; intros coeff Hlen.
  - simpl. unfold poly_derivative. now rewrite Hlen.
  - destruct (poly_derivative_total coeff) as (c & Hc & Hl).
    rewrite Hlen in Hl. simpl in Hl.
    change (iter_derivative (S (S n)) (Polynomial coeff))
      with (f' ← fmap_result Polynomial (poly_derivative coeff);
            iter_derivative (S n) f').
    rewrite Hc. simpl fmap_result.
    change (iter_derivative (S n) (Polynomial c) = Ok (Polynomial [of_Z 0])).
    apply IH. lia.
Qed.

Lemma iter_derivative_zero (k : nat) :
  iter_derivative k (Polynomial [of_Z 0]) = Ok (Polynomial [of_Z 0]).
Proof. induction k as [|k IH]; [reflexivity | exact IH]. Qed.

Lemma iter_derivative_add (j k : nat) (f : obj) :
  iter_derivative (j + k) f = (g ← iter_derivative j f; iter_derivative k g).
Proof.
  revert f. induction j as [|j IH]; intros f; [reflexivity|].
  simpl. destruct (derivative f); simpl; [apply IH | reflexivity].
Qed.

(** A tree is a node. *)
Lemma is_tree_node (f : obj) : is_tree f = true → is_node f = true.
Proof. destruct f; simpl; intros; congruence. Qed.

(** [derivative] never raises on an expression tree, and returns a node. *)
Lemma derivative_tree (f : obj) :
  is_tree f = true → ∃ f', derivative f = Ok f' ∧ is_node f' = true.
Proof.
  induction f as [| | | | | coeff |f IHf g IHg|f IHf g IHg|f IHf g IHg|n| | | | |name];
    simpl; intros Ht; try discriminate; eauto.
  - destruct (poly_derivative_total coeff) as (c & -> & _). simpl. eauto.
  - apply andb_prop in Ht as [Hf Hg].
    destruct (IHf Hf) as (f' & -> & Hf'). destruct (IHg Hg) as (g' & -> & _).
    apply is_tree_node in Hg. simpl.
    destruct (is_symbolic f') eqn:Hs.
    + destruct f'; try discriminate. simpl. eauto.
    + rewrite (call_node f' g Hf' Hs Hg). simpl. eauto.
  - apply andb_prop in Ht as [Hf Hg].
    destruct (IHf Hf) as (f' & -> & _). destruct (IHg Hg) as (g' & -> & _).
    simpl. eauto.
  - apply andb_prop in Ht as [Hf Hg].
    destruct (IHf Hf) as (f' & -> & _). destruct (IHg Hg) as (g' & -> & _).
    simpl. eauto.
Qed.

End DerivativeTotal.

(** X9.  Differentiating a Polynomial with [n] coefficients ([n >= 1])
    [n] times, or more, gives the zero polynomial [Polynomial(0)]; each
    derivative of a Polynomial of degree at least 1 has one coefficient
    less. *)
Theorem polynomial_iterated_derivative `{N : Numeric} (coeff : list num) (k : nat) :
  coeff ≠ [] →
  iter_derivative (length coeff + k) (Polynomial coeff) = Ok (Polynomial [of_Z 0])
  ∧ ((1 < length coeff)%nat →
     ∃ c, derivative (Polynomial coeff) = Ok (Polynomial c)
          ∧ length c = (length coeff - 1)%nat).
Proof.
  intros Hne.
  assert (Hlen : ∃ n, length coeff = S n)
    by (destruct coeff; [congruence | simpl; eauto]).
  destruct Hlen as [n Hn]. split.
  - rewrite iter_derivative_add, Hn, (iter_derivative_polynomial n coeff Hn).
    apply iter_derivative_zero.
  - intros H1. destruct (poly_derivative_total coeff) as (c & Hc & Hl).
    exists c. simpl. rewrite Hc. split; [reflexivity|].
    destruct (Nat.eqb_spec (length coeff) 1); [lia | exact Hl].
Qed.

Lemma polynomial_iterated_derivative_witness :
  iter_derivative 3 (Fractions.poly [1; 0; -4]) = Ok (Fractions.poly [0]).
Proof.
  apply (polynomial_iterated_derivative (N := Fractions.numeric)
           (map Fractions.from_Z [1; 0; -4]) 0).
  discriminate.
Defined.

(** X10.  [derivative()] never raises on an expression tree (a node whose
    children, at every level, are nodes): it returns a node, and a node
    that is not Symbolic when the tree is not a Symbolic. *)
Theorem derivative_never_raises `{N : Numeric} (f : obj) :
  is_tree f = true →
  ∃ f', derivative f = Ok f' ∧ is_node f' = true
        ∧ (is_symbolic f = false → is_symbolic f' = false).
Proof.
  intros Ht. destruct (derivative_tree f Ht) as (f' & Hd & Hn).
  exists f'. split; [exact Hd|]. split; [exact Hn|].
  intros Hs. now destruct (derivative_node f f' Hs Hd).
Qed.

Lemma derivative_never_raises_witness :
  ∃ f', derivative (Compose Log (Product Sin (Fractions.poly [1; 0]))) = Ok f'
        ∧ is_node f' = true
        ∧ (is_symbolic (Compose Log (Product Sin (Fractions.poly [1; 0]))) = false
           → is_symbolic f' = false).
Proof.
  apply (derivative_never_raises (Compose Log (Product Sin (Fractions.poly [1; 0])))).
  reflexivity.
Defined.

(** ** The kinds of values [evaluate] returns *)

Section ValueKinds.
Context `{N : Numeric}.

Lemma symbol_free_node (f : obj) :
  symbol_free f = true → is_node f = true ∧ is_symbolic f = false.
Proof. destruct f; simpl; intros; split; congruence. Qed.

(** Without Symbolic nodes, the value at a number is a number. *)
Lemma symbol_free_number (f : obj) (v : num) (r : obj) :
  symbol_free f = true → evaluate f (ONum v) = Ok r → is_number r = true.
Proof.
  revert v r.
  induction f as [| | | | | coeff |f IHf g IHg|f IHf g IHg|f IHf g IHg|n| | | | |name];
    intros w r Hf H; try discriminate.
  - simpl in H. apply fmap_result_Ok in H as (? & _ & ->). reflexivity.
  - apply andb_prop in Hf as [Hf Hg].
    destruct (symbol_free_node f Hf) as [Hfn Hfs].
    destruct (symbol_free_node g Hg) as [Hgn Hgs].
    change (evaluate (Compose f g) (ONum w))
      with (y ← call g (ONum w); call f y) in H.
    rewrite (call_number g w Hgn Hgs) in H.
    apply bind_result_Ok in H as (y & Hy & H).
    apply IHg in Hy; [|exact Hg]. destruct y; try discriminate.
    rewrite (call_number f _ Hfn Hfs) in H. now apply IHf in H.
  - apply andb_prop in Hf as [Hf Hg].
    destruct (symbol_free_node f Hf) as [Hfn Hfs].
    destruct (symbol_free_node g Hg) as [Hgn Hgs].
    change (evaluate (Sum f g) (ONum w))
      with (a ← call f (ONum w); b ← call g (ONum w); py_add a b) in H.
    rewrite (call_number f w Hfn Hfs), (call_number g w Hgn Hgs) in H.
    apply bind_result_Ok in H as (a & Ha & H).
    apply bind_result_Ok in H as (b & Hb & H).
    apply IHf in Ha; [|exact Hf]. apply IHg in Hb; [|exact Hg].
    destruct a, b; try discriminate. simpl in H. inversion H. reflexivity.
  - apply andb_prop in Hf as [Hf Hg].
    destruct (symbol_free_node f Hf) as [Hfn Hfs].
    destruct (symbol_free_node g Hg) as [Hgn Hgs].
    change (evaluate (Product f g) (ONum w))
      with (a ← call f (ONum w); b ← call g (ONum w); py_mul a b) in H.
    rewrite (call_number f w Hfn Hfs), (call_number g w Hgn Hgs) in H.
    apply bind_result_Ok in H as (a & Ha & H).
    apply bind_result_Ok in H as (b & Hb & H).
    apply IHf in Ha; [|exact Hf]. apply IHg in Hb; [|exact Hg].
    destruct a, b; try discriminate. simpl in H. inversion H. reflexivity.
  - simpl in H. apply fmap_result_Ok in H as (? & _ & ->). reflexivity.
  - simpl in H. apply fmap_result_Ok in H as (? & _ & ->). reflexivity.
  - simpl in H. apply fmap_result_Ok in H as (? & _ & ->). reflexivity.
  - simpl in H. apply fmap_result_Ok in H as (? & _ & ->). reflexivity.
  - simpl in H. apply fmap_result_Ok in H as (? & _ & ->). reflexivity.
Qed.

End ValueKinds.

(** X11.  Whatever object [evaluate] is called on, what it returns for a
    number is a number or a string, never [None], an array or a node; on
    an expression tree without Symbolic nodes it is a number. *)
Theorem evaluate_number_kind `{N : Numeric} (f : obj) (v : num) (r : obj) :
  evaluate f (ONum v) = Ok r →
  (is_number r = true ∨ is_str r = true)
  ∧ (symbol_free f = true → is_number r = true).
Proof.
  intros H. split.
  - apply evaluate_scalar_kind in H. unfold is_scalar in H.
    now apply orb_prop in H.
  - intros Hf. now apply (symbol_free_number f v r).
Qed.

Lemma evaluate_number_kind_witness :
  evaluate (Sum (Symbolic "a") (Symbolic "b")) (Fractions.number 1)
  = Ok (OStr "a(1)b(1)")
  ∧ (is_number (N := Fractions.numeric) (OStr "a(1)b(1)") = true
     ∨ is_str (N := Fractions.numeric) (OStr "a(1)b(1)") = true).
Proof.
  split; [reflexivity|].
  apply (evaluate_number_kind (N := Fractions.numeric)
           (Sum (Symbolic "a") (Symbolic "b")) (Fractions.from_Z 1)
           (OStr "a(1)b(1)")).
  reflexivity.
Defined.

(** ** Runs of Newton's method *)

Section NewtonRuns.
Context `{N : Numeric}.

Lemma newton_step_ok (f : obj) (x x' : num) (fx fx' : obj) (tr : list event) :
  newton_step f x fx = (tr, Ok (x', fx')) → evaluate f (ONum x') = Ok fx'.
Proof.
  unfold newton_step. intros H.
  destruct (derivative f) as [d|]; [|inversion H].
  destruct (evaluate d (ONum x) ≫= py_truediv fx) as [q|]; [|inversion H].
  destruct (evaluate f (ONum (x ⊖ q))) as [y|] eqn:E; inversion H; subst.
  exact E.
Qed.

Lemma newton_loop_post (fuel : nat) (f : obj) (tol x y : num) (fx : obj)
    (tr : list event) :
  evaluate f (ONum x) = Ok fx →
  newton_loop fuel f tol x fx = (tr, Some (Ok y)) →
  ∃ v, evaluate f (ONum y) = Ok (ONum v) ∧ ngtb (nabs v) tol = false.
Proof.
  revert x fx tr. induction fuel as [|fuel IH]; intros x fx tr Hx H.
  - simpl in H. destruct fx; try (inversion H; fail). simpl in H.
    destruct (ngtb (nabs v) tol) eqn:E; inversion H; subst. eauto.
  - simpl in H. destruct fx; try (inversion H; fail). simpl in H.
    destruct (ngtb (nabs v) tol) eqn:E.
    + destruct (newton_step f x (ONum v)) as [tr1 [[x' fx']|e]] eqn:Hs;
        [|inversion H].
      apply newton_step_ok in Hs.
      destruct (newton_loop fuel f tol x' fx') as [tr2 r] eqn:Hl.
      simpl in H. inversion H; subst. eapply IH; eauto.
    + inversion H; subst. eauto.
Qed.

Lemma newton_root_post (fuel : nat) (f : obj) (x0 tol y : num) (tr : list event) :
  newton_root fuel f x0 tol = (tr, Some (Ok y)) →
  is_node f = true ∧ is_symbolic f = false
  ∧ ∃ v, evaluate f (ONum y) = Ok (ONum v) ∧ ngtb (nabs v) tol = false.
Proof.
  unfold newton_root, newton_check. intros H.
  destruct (is_node f); simpl in H; [|inversion H].
  destruct (is_symbolic f); simpl in H; [inversion H|].
  split; [reflexivity|]. split; [reflexivity|].
  unfold newton_iterate in H.
  destruct (evaluate f (ONum x0)) as [fx|] eqn:E; [|inversion H].
  destruct (newton_loop fuel f tol x0 fx) as [tr' r] eqn:Hl.
  simpl in H. inversion H; subst. eapply newton_loop_post; eauto.
Qed.

(** More fuel does not change a run that has ended. *)
Lemma newton_loop_fuel (fuel k : nat) (f : obj) (tol x : num) (fx : obj)
    (tr : list event) (r : result num) :
  newton_loop fuel f tol x fx = (tr, Some r) →
  newton_loop (fuel + k) f tol x fx = (tr, Some r).
Proof.
  revert x fx tr. induction fuel as [|fuel IH]; intros x fx tr H.
  - simpl in H. destruct (abs_gt fx tol) as [[|]|] eqn:E; inversion H; subst.
    + destruct k; simpl; now rewrite E.
    + destruct k; simpl; now rewrite E.
  - simpl in H |- *. destruct (abs_gt fx tol) as [[|]|]; try exact H.
    destruct (newton_step f x fx) as [tr1 [[x' fx']|e]]; [|exact H].
    destruct (newton_loop fuel f tol x' fx') as [tr2 [r2|]] eqn:Hl;
      simpl in H; inversion H; subst.
    now rewrite (IH _ _ _ Hl).
Qed.

End NewtonRuns.

(** X12.  When [newton_root(f, x0, tol)] returns a point, [f] is a node
    other than a Symbolic, [f] has a numeric value at the returned point
    and the absolute value of it is not greater than [tol]; a longer run
    returns the same point after the same evaluations. *)
Theorem newton_root_returns_within_tol `{N : Numeric}
    (fuel k : nat) (f : obj) (x0 tol y : num) (tr : list event) :
  newton_root fuel f x0 tol = (tr, Some (Ok y)) →
  is_node f = true ∧ is_symbolic f = false
  ∧ (∃ v, evaluate f (ONum y) = Ok (ONum v) ∧ ngtb (nabs v) tol = false)
  ∧ newton_root (fuel + k) f x0 tol = (tr, Some (Ok y)).
Proof.
  intros H. destruct (newton_root_post fuel f x0 tol y tr H) as (Hn & Hs & Hv).
  split; [exact Hn|]. split; [exact Hs|]. split; [exact Hv|].
  unfold newton_root, newton_check in H |- *. rewrite Hn, Hs in H |- *.
  simpl in H |- *. unfold newton_iterate in H |- *.
  destruct (evaluate f (ONum x0)) as [fx|]; [|exact H].
  destruct (newton_loop fuel f tol x0 fx) as [tr' [r|]] eqn:Hl;
    simpl in H; inversion H; subst.
  now rewrite (newton_loop_fuel fuel k f tol x0 fx tr' (Ok y) Hl).
Qed.

Lemma newton_root_returns_within_tol_witness :
  ∃ v, evaluate (Fractions.poly [2; 0]) (Fractions.number 0) = Ok (ONum v)
       ∧ ngtb (nabs v) tol_default = false.
Proof.
  eapply (newton_root_returns_within_tol 1 0 (Fractions.poly [2; 0])
            (Fractions.from_Z 1) tol_default (Fractions.from_Z 0)).
  reflexivity.
Defined.

(** X13.  [newton_extremum] differentiates before [newton_root] checks
    its argument: called with an object that is no node it raises
    AttributeError (not the ValueError of the check), called with a Symbolic
    it raises the ValueError of the check, in both cases without any call of
    [evaluate]; on any other expression tree the derivative exists and the
    run starts by evaluating it at [x0]. *)
Theorem newton_extremum_errors `{N : Numeric} (fuel : nat) (f : obj) (x0 tol : num) :
  (is_node f = false →
   newton_extremum fuel f x0 tol = ([], Some (Err AttributeError)))
  ∧ (is_symbolic f = true →
     newton_extremum fuel f x0 tol
     = ([], Some (Err (ValueError "f must not be a Symbolic"))))
  ∧ (is_tree f = true → is_symbolic f = false →
     ∃ f' tr, derivative f = Ok f'
              ∧ (newton_extremum fuel f x0 tol).1 = Evaluated f' x0 :: tr).
Proof.
  split; [|split].
  - intros Hn. destruct f; try discriminate; reflexivity.
  - intros Hs. destruct f; try discriminate; reflexivity.
  - intros Ht Hs. destruct (derivative_tree f Ht) as (f' & Hd & Hn).
    destruct (derivative_node f f' Hs Hd) as [_ Hs'].
    exists f'. unfold newton_extremum, newton_root, newton_check.
    rewrite Hd, Hn, Hs'. simpl. unfold newton_iterate.
    destruct (evaluate f' (ONum x0)); simpl; eauto.
Qed.

Lemma newton_extremum_errors_witness :
  newton_extremum 5 (Fractions.number 7) (Fractions.from_Z 1) (Fractions.from_Z 1)
  = ([], Some (Err AttributeError))
  ∧ newton_extremum 5 (Symbolic "f") (Fractions.from_Z 1) (Fractions.from_Z 1)
    = ([], Some (Err (ValueError "f must not be a Symbolic"))).
Proof.
  split.
  - apply (newton_extremum_errors (N := Fractions.numeric) 5 (Fractions.number 7)).
    reflexivity.
  - apply (newton_extremum_errors (N := Fractions.numeric) 5 (Symbolic "f")).
    reflexivity.
Defined.

(** X14.  [newton_root] handles no exception of its Newton step: when
    [|f(x0)|] exceeds [tol] and the division [f(x0) / f'(x0)] raises (a zero
    derivative), the run ends with that exception after exactly two
    evaluations, of [f] and of its derivative at [x0]. *)
Theorem newton_root_step_raises `{N : Numeric}
    (fuel : nat) (f d : obj) (x0 tol v dv : num) (e : exn) :
  is_node f = true → is_symbolic f = false →
  evaluate f (ONum x0) = Ok (ONum v) → ngtb (nabs v) tol = true →
  derivative f = Ok d → evaluate d (ONum x0) = Ok (ONum dv) →
  ndiv v dv = Err e →
  newton_root (S fuel) f x0 tol
  = ([Evaluated f x0; Evaluated d x0], Some (Err e)).
Proof.
  intros Hn Hs Ev Hgt Hd Ed He.
  unfold newton_root, newton_check. rewrite Hn, Hs. simpl.
  unfold newton_iterate. rewrite Ev. simpl. rewrite Hgt.
  unfold newton_step. rewrite Hd, Ed. simpl. rewrite He. reflexivity.
Qed.

Lemma newton_root_step_raises_witness :
  newton_root 3 (Fractions.poly [1; 0; 1]) (Fractions.from_Z 0) tol_default
  = ([Evaluated (Fractions.poly [1; 0; 1]) (Fractions.from_Z 0);
      Evaluated (Fractions.poly [2; 0]) (Fractions.from_Z 0)],
     Some (Err ZeroDivisionError)).
Proof.
  apply (newton_root_step_raises (N := Fractions.numeric) 2
           (Fractions.poly [1; 0; 1]) (Fractions.poly [2; 0])
           (Fractions.from_Z 0) tol_default (Fractions.from_Z 1) (Fractions.from_Z 0)
           ZeroDivisionError); reflexivity.
Defined.

Section NewtonLinear.
Context `{L : NumericLaws}.

Add Ring num_ring_newton : num_semi_ring.

(** The Newton step from [x0] lands on the zero of [a*x + b], when the
    division is exact and subtraction undoes addition. *)
Lemma affine_newton_point (a b x0 q : num) :
  (∀ u v : num, (u ⊖ v) ⊕ v = u) →
  q ⊗ a = a ⊗ x0 ⊕ b →
  a ⊗ (x0 ⊖ q) ⊕ b = of_Z 0.
Proof.
  intros Hsub Hq.
  apply (nadd_cancel_zero (a ⊗ x0 ⊕ b)).
  assert (Ex : x0 = (x0 ⊖ q) ⊕ q) by (symmetry; apply Hsub).
  set (y := x0 ⊖ q) in *. clearbody y.
  transitivity ((a ⊗ y ⊕ b) ⊕ q ⊗ a).
  - rewrite Hq. ring.
  - rewrite Ex. ring.
Qed.

Lemma newton_root_affine (fuel : nat) (a b x0 tol q : num) :
  (∀ u v : num, (u ⊖ v) ⊕ v = u) →
  ngtb (nabs (a ⊗ x0 ⊕ b)) tol = true →
  ndiv (a ⊗ x0 ⊕ b) a = Ok q → q ⊗ a = a ⊗ x0 ⊕ b →
  ngtb (nabs (of_Z 0)) tol = false →
  (newton_root (S fuel) (Affine a b) x0 tol).2 = Some (Ok (x0 ⊖ q))
  ∧ evaluate (Affine a b) (ONum (x0 ⊖ q)) = Ok (ONum (of_Z 0)).
Proof.
  intros Hsub Hgt Hdiv Hq H0.
  assert (Ez : evaluate (Affine a b) (ONum (x0 ⊖ q)) = Ok (ONum (of_Z 0)))
    by (rewrite affine_value; now rewrite (affine_newton_point a b x0 q Hsub Hq)).
  split; [|exact Ez].
  assert (Ed : evaluate (Polynomial [a ⊗ of_Z 1]) (ONum x0) = Ok (ONum a))
    by exact (affine_derivative_value a b x0).
  unfold newton_root, newton_check. simpl negb. cbv iota.
  unfold newton_iterate. rewrite affine_value.
  cbn [newton_loop abs_gt]. rewrite Hgt.
  unfold newton_step.
  change (derivative (Affine a b)) with (Ok (Polynomial [a ⊗ of_Z 1])).
  cbv iota. rewrite Ed. cbn [mbind result_bind py_truediv]. rewrite Hdiv.
  cbv iota zeta. rewrite Ez.
  destruct fuel; cbn [newton_loop abs_gt]; rewrite H0; reflexivity.
Qed.

End NewtonLinear.

(** X15.  In exact arithmetic (a number type under the laws
    [NumericLaws], in which subtracting and adding back the same number
    changes nothing), Newton's method solves a linear equation in one step:
    for [Affine(a,b)], a start [x0] where [|a*x0 + b|] exceeds [tol], an
    exact division (the quotient [q] of [a*x0 + b] by [a] times [a] gives it
    back) and a tolerance that admits 0, [newton_root] returns [x0 - q],
    where [Affine(a,b)] evaluates to 0. *)
Theorem newton_root_linear `{L : NumericLaws} (fuel : nat) (a b x0 tol q : num) :
  (∀ u v : num, (u ⊖ v) ⊕ v = u) →
  ngtb (nabs (a ⊗ x0 ⊕ b)) tol = true →
  ndiv (a ⊗ x0 ⊕ b) a = Ok q → q ⊗ a = a ⊗ x0 ⊕ b →
  ngtb (nabs (of_Z 0)) tol = false →
  (newton_root (S fuel) (Affine a b) x0 tol).2 = Some (Ok (x0 ⊖ q))
  ∧ evaluate (Affine a b) (ONum (x0 ⊖ q)) = Ok (ONum (of_Z 0)).
Proof. apply newton_root_affine. Qed.

Lemma newton_root_linear_witness :
  (newton_root 1 (Affine (Fractions.from_Z 2) (Fractions.from_Z (-4)))
     (Fractions.from_Z 5) tol_default).2
  = Some (Ok (Fractions.from_Z 5
              - (Fractions.from_Z 2 * Fractions.from_Z 5 + Fractions.from_Z (-4))
                / Fractions.from_Z 2)%Qc).
Proof.
  apply (newton_root_linear (L := FractionsLaws.laws) 0
           (Fractions.from_Z 2) (Fractions.from_Z (-4)) (Fractions.from_Z 5)
           tol_default
           ((Fractions.from_Z 2 * Fractions.from_Z 5 + Fractions.from_Z (-4))
            / Fractions.from_Z 2)%Qc).
  - intros u v. simpl. ring.
  - reflexivity.
  - reflexivity.
  - apply Qc_is_canon. reflexivity.
  - reflexivity.
Defined.

(** ** More on Polynomial addition *)

Section AdditionValues.
Context `{L : NumericLaws}.

(** The pure and the store model of [Polynomial.__add__] agree on the
    coefficients of the result. *)
Lemma poly_add_coeffs_right_aligned (cp cq : list num) :
  cp ≠ [] → cq ≠ [] →
  poly_add_coeffs cp cq = Ok (right_aligned_sum cp cq).
Proof.
  intros Hp Hq. unfold poly_add_coeffs, degree.
  destruct (Z.gtb_spec (Z.of_nat (length cp) - 1) (Z.of_nat (length cq) - 1)).
  - change (Z.of_nat (length cq) - 1) with (degree cq).
    rewrite slice_iadd_tail by (first [assumption | lia]).
    now rewrite tail_sum_right_aligned by lia.
  - change (Z.of_nat (length cp) - 1) with (degree cp).
    rewrite slice_iadd_tail by (first [assumption | lia]).
    now rewrite tail_sum_right_aligned, right_aligned_sum_comm by lia.
Qed.

Lemma evaluate_right_aligned_sum (cp cq : list num) (x : num) :
  evaluate (Polynomial (right_aligned_sum cp cq)) (ONum x)
  = Ok (ONum (power_sum cp x ⊕ power_sum cq x)).
Proof.
  now rewrite evaluate_polynomial_hsum, hsum_right_aligned_sum, !power_sum_hsum.
Qed.

End AdditionValues.

(** X16.  After [p + q] on two Polynomials with at least one coefficient
    each, the new Polynomial and the higher-degree operand ([q] when the
    degrees are equal) hold the same coefficients, those the operator
    returns, and both evaluate at every number, in exact arithmetic, to the
    sum of the values [p] and [q] had before the call. *)
Theorem polynomial_add_operand_value `{L : NumericLaws}
    (σ : gmap PolyStore.loc (list num)) (p q : PolyStore.loc)
    (cp cq : list num) (x : num) :
  σ !! p = Some cp → σ !! q = Some cq → cp ≠ [] → cq ≠ [] →
  ∃ r σ' c,
    PolyStore.add σ p q = Ok (r, σ')
    ∧ py_add (Polynomial cp) (Polynomial cq) = Ok (Polynomial c)
    ∧ σ' !! r = Some c
    ∧ σ' !! (if degree cp >? degree cq then p else q) = Some c
    ∧ evaluate (Polynomial c) (ONum x)
      = Ok (ONum (power_sum cp x ⊕ power_sum cq x)).
Proof.
  intros Hp Hq Hnp Hnq. unfold PolyStore.add. rewrite Hp, Hq.
  unfold degree.
  destruct (Z.gtb_spec (Z.of_nat (length cp) - 1) (Z.of_nat (length cq) - 1)) as [Hgt|Hle].
  - destruct (add_into_spec σ p q cp cq Hp Hq Hnq ltac:(lia))
      as (r & σ' & Hadd & _ & Hsr & Hsp & _).
    exists r, σ', (right_aligned_sum cp cq). repeat split; try assumption.
    + simpl. now rewrite poly_add_coeffs_right_aligned.
    + apply evaluate_right_aligned_sum.
  - destruct (add_into_spec σ q p cq cp Hq Hp Hnp ltac:(lia))
      as (r & σ' & Hadd & _ & Hsr & Hsp & _).
    rewrite (right_aligned_sum_comm cq cp) in Hsr, Hsp.
    exists r, σ', (right_aligned_sum cp cq). repeat split; try assumption.
    + simpl. now rewrite poly_add_coeffs_right_aligned.
    + apply evaluate_right_aligned_sum.
Qed.

Lemma polynomial_add_operand_value_witness :
  ∃ r σ' c,
    PolyStore.add (Fractions.store2 [1; 2; 3] [4; 5]) 1%positive 2%positive = Ok (r, σ')
    ∧ py_add (Fractions.poly [1; 2; 3]) (Fractions.poly [4; 5]) = Ok (Polynomial c)
    ∧ σ' !! r = Some c
    ∧ σ' !! 1%positive = Some c
    ∧ evaluate (Polynomial c) (Fractions.number 2)
      = Ok (ONum (power_sum (map Fractions.from_Z [1; 2; 3]) (Fractions.from_Z 2)
                  ⊕ power_sum (map Fractions.from_Z [4; 5]) (Fractions.from_Z 2))).
Proof.
  apply (polynomial_add_operand_value (L := FractionsLaws.laws)
           (Fractions.store2 [1; 2; 3] [4; 5]) 1%positive 2%positive
           (map Fractions.from_Z [1; 2; 3]) (map Fractions.from_Z [4; 5])
           (Fractions.from_Z 2));
    first [reflexivity | discriminate].
Defined.

(** X17.  Adding the empty Polynomial [Polynomial()] to a Polynomial with
    coefficients raises, whichever operand comes first (the slice
    [coeff[-0:]] is the whole array, and numpy cannot add an array of another
    length into it), and no Polynomial is returned; two empty Polynomials add
    to a new empty Polynomial. *)
Theorem polynomial_add_empty `{N : Numeric}
    (σ : gmap PolyStore.loc (list num)) (p q : PolyStore.loc) (cq : list num) :
  σ !! p = Some [] → σ !! q = Some cq →
  (cq ≠ [] → (∃ e, PolyStore.add σ p q = Err e) ∧ (∃ e, PolyStore.add σ q p = Err e))
  ∧ (cq = [] → ∃ r σ', PolyStore.add σ p q = Ok (r, σ')
                        ∧ σ !! r = None ∧ σ' !! r = Some []).
Proof.
  intros Hp Hq. split.
  - intros Hne.
    assert (Hlen : (0 < length cq)%nat) by (destruct cq; [congruence | simpl; lia]).
    assert (Hs : slice_iadd cq (degree [] + 1) [] = Err broadcast_error).
    { unfold slice_iadd, slice_start, degree. simpl. rewrite drop_0.
      destruct cq; [congruence | reflexivity]. }
    unfold PolyStore.add, PolyStore.add_into. rewrite Hp, Hq.
    split.
    + destruct (Z.gtb_spec (degree []) (degree cq)) as [H|_];
        [unfold degree in H; simpl in H; lia|].
      rewrite ?Hq, ?Hp, Hs. simpl. eauto.
    + destruct (Z.gtb_spec (degree cq) (degree [])) as [_|H];
        [|unfold degree in H; simpl in H; lia].
      rewrite ?Hq, ?Hp, Hs. simpl. eauto.
  - intros ->. unfold PolyStore.add, PolyStore.add_into. rewrite ?Hp, ?Hq. simpl.
    rewrite ?Hq, ?Hp. simpl. unfold PolyStore.alloc.
    set (σ1 := <[q := []]> σ).
    assert (Hr1 : σ1 !! fresh (dom σ1) = None)
      by (apply not_elem_of_dom, is_fresh).
    assert (Hrq : fresh (dom σ1) ≠ q).
    { intros E. rewrite E in Hr1. unfold σ1 in Hr1 at 1.
      rewrite lookup_insert_eq in Hr1. discriminate. }
    eexists _, _. split; [reflexivity|]. split.
    + rewrite <- (lookup_insert_ne σ q (fresh (dom σ1)) []) by congruence.
      exact Hr1.
    + apply lookup_insert_eq.
Qed.

Lemma polynomial_add_empty_witness :
  (∃ e, PolyStore.add (Fractions.store2 [] [1; 2]) 1%positive 2%positive = Err e)
  ∧ (∃ e, PolyStore.add (Fractions.store2 [] [1; 2]) 2%positive 1%positive = Err e).
Proof.
  apply (polynomial_add_empty (N := Fractions.numeric)
           (Fractions.store2 [] [1; 2]) 1%positive 2%positive
           (map Fractions.from_Z [1; 2]));
    first [reflexivity | discriminate].
Defined.

(** ** Rendering and Symbolic nodes *)

Section Strings.

Lemma str_app_assoc (a b c : string) : (a +:+ b) +:+ c = a +:+ (b +:+ c).
Proof.
  induction a as [|x a IH]; [reflexivity|].
  change (String x ((a +:+ b) +:+ c) = String x (a +:+ (b +:+ c))).
  now rewrite IH.
Qed.

Lemma str_app_nil_r (a : string) : a +:+ "" = a.
Proof.
  induction a as [|x a IH]; [reflexivity|].
  change (String x (a +:+ "") = String x a). now rewrite IH.
Qed.

End Strings.

(** X18.  [Log], [Exponential], [Sin] and [Cos] do not substitute the
    indeterminate: their [__str__] keeps the doubled braces, so called with
    any name they return ["log({0})"], ["e ^ {0}"], ["sin({0})"] and
    ["cos({0})"]. *)
Theorem elementary_render_ignores_name `{N : Numeric} (x : string) :
  call Log (OStr x) = Ok (OStr "log({0})")
  ∧ call Exponential (OStr x) = Ok (OStr "e ^ {0}")
  ∧ call Sin (OStr x) = Ok (OStr "sin({0})")
  ∧ call Cos (OStr x) = Ok (OStr "cos({0})").
Proof. repeat split. Qed.

(** X19.  Differentiating a Symbolic [k] times appends [k] primes to its
    name, and calling the result with any argument returns the primed name
    applied to the printed argument; its [evaluate] raises
    NotImplementedError. *)
Theorem symbolic_iterated_derivative `{N : Numeric} (name : string) (k : nat) (x : obj) :
  iter_derivative k (Symbolic name) = Ok (Symbolic (name +:+ str_repeat "'" k))
  ∧ (d ← iter_derivative k (Symbolic name); call d x)
    = Ok (OStr (name +:+ str_repeat "'" k +:+ "(" +:+ py_str x +:+ ")"))
  ∧ (d ← iter_derivative k (Symbolic name); evaluate d x)
    = Err (NotImplementedError "evaluate").
Proof.
  assert (H : iter_derivative k (Symbolic name)
              = Ok (Symbolic (name +:+ str_repeat "'" k))).
  { revert name. induction k as [|k IH]; intros name.
    - cbn [iter_derivative str_repeat]. now rewrite str_app_nil_r.
    - change (iter_derivative (S k) (Symbolic name))
        with (iter_derivative k (Symbolic (name +:+ "'"))).
      rewrite IH, str_app_assoc. reflexivity. }
  split; [exact H|]. rewrite H. split; [|reflexivity].
  change (Ok (OStr ((name +:+ str_repeat "'" k) +:+ "(" +:+ py_str x +:+ ")"))
          = Ok (OStr (name +:+ str_repeat "'" k +:+ "(" +:+ py_str x +:+ ")"))).
  now rewrite str_app_assoc.
Qed.

(** X20.  The derivative of a composition whose outer function is a
    Symbolic holds a string, not a node, as its first factor (the Symbolic
    derivative was called with the inner node): it renders as a product, but
    evaluating it raises TypeError whatever the argument. *)
Theorem symbolic_compose_derivative `{N : Numeric} (name : string) (g g' x : obj) :
  derivative g = Ok g' →
  derivative (Compose (Symbolic name) g)
  = Ok (Product (OStr (name +:+ "'" +:+ "(" +:+ py_str g +:+ ")")) g')
  ∧ evaluate (Product (OStr (name +:+ "'" +:+ "(" +:+ py_str g +:+ ")")) g') x
    = Err TypeError
  ∧ py_str (Product (OStr (name +:+ "'" +:+ "(" +:+ py_str g +:+ ")")) g')
    = name +:+ "'" +:+ "(" +:+ py_str g +:+ ")" +:+ " * " +:+ py_str g'.
Proof.
  intros Hg. split; [|split].
  - change (derivative (Compose (Symbolic name) g))
      with (g0 ← derivative g;
            Ok (Product (OStr ((name +:+ "'") +:+ "(" +:+ py_str g +:+ ")")) g0)).
    rewrite Hg. cbn [mbind result_bind]. now rewrite str_app_assoc.
  - reflexivity.
  - cbn [py_str]. now rewrite !str_app_assoc.
Qed.

Lemma symbolic_compose_derivative_witness :
  derivative (Compose (Symbolic "f") (Fractions.poly [1; 0]))
  = Ok (Product (OStr "f'({0})") (Fractions.poly [1]))
  ∧ evaluate (Product (OStr "f'({0})") (Fractions.poly [1])) (Fractions.number 2)
    = Err TypeError
  ∧ py_str (Product (OStr "f'({0})") (Fractions.poly [1])) = "f'({0}) * 1".
Proof.
  apply (symbolic_compose_derivative (N := Fractions.numeric) "f"
           (Fractions.poly [1; 0]) (Fractions.poly [1]) (Fractions.number 2)).
  reflexivity.
Defined.

(** ** Evaluation at arrays *)

Section ArrayValues.
Context `{L : NumericLaws}.

(** Calling a node other than a Symbolic with an array evaluates it. *)
Lemma call_array (f : obj) (a : list num) :
  is_node f = true → is_symbolic f = false →
  call f (OArr a) = evaluate f (OArr a).
Proof. destruct f; simpl; intros; congruence. Qed.

Lemma mapM_result_Forall2 {A B} (k : A → result B) (l : list A) (ys : list B) :
  mapM_result k l = Ok ys ↔ Forall2 (λ x y, k x = Ok y) l ys.
Proof.
  revert ys. induction l as [|a l IH]; intros ys.
  - split; intros H; inversion H; [constructor | reflexivity].
  - change (mapM_result k (a :: l))
      with (b ← k a; bs ← mapM_result k l; Ok (b :: bs)).
    split; intros H.
    + apply bind_result_Ok in H as (b & Hb & H).
      apply bind_result_Ok in H as (bs & Hbs & H).
      inversion H; subst. constructor; [exact Hb | now apply IH].
    + inversion H as [|? y ? ys' Hy Hys]; subst.
      apply IH in Hys. now rewrite Hy, Hys.
Qed.

Lemma Forall2_functional {A B} (P : A → B → Prop) (xs : list A) (ys ys' : list B) :
  (∀ x y y', P x y → P x y' → y = y') →
  Forall2 P xs ys → Forall2 P xs ys' → ys = ys'.
Proof.
  intros HP H. revert ys'. induction H as [|x y xs ys Hxy _ IH]; intros ys' H'.
  - now inversion H'.
  - inversion H' as [|? y' ? ys'' Hxy' Hys']; subst.
    f_equal; [now apply (HP x) | now apply IH].
Qed.

Lemma Forall2_compose {A B C} (P : A → B → Prop) (Q : B → C → Prop)
    (xs : list A) (ys : list C) :
  Forall2 (λ x y, ∃ z, P x z ∧ Q z y) xs ys
  ↔ ∃ zs, Forall2 P xs zs ∧ Forall2 Q zs ys.
Proof.
  split.
  - induction 1 as [|x y xs ys (z & Hp & Hq) _ (zs & Hps & Hqs)].
    + exists []. split; constructor.
    + exists (z :: zs). split; now constructor.
  - intros (zs & Hp & Hq). revert ys Hq.
    induction Hp as [|x z xs zs Hxz _ IH]; intros ys Hq.
    + inversion Hq. constructor.
    + inversion Hq as [|? y ? ys' Hzy Hys]; subst.
      constructor; [now exists z | now apply IH].
Qed.

Lemma Forall2_pointwise {A} (P Q : A → num → Prop) (op : num → num → num)
    (xs : list A) (ys : list num) :
  Forall2 (λ x y, ∃ a b, P x a ∧ Q x b ∧ y = op a b) xs ys
  ↔ ∃ us vs, Forall2 P xs us ∧ Forall2 Q xs vs ∧ ys = zip_with op us vs.
Proof.
  split.
  - induction 1 as [|x y xs ys (a & b & Hp & Hq & ->) _ (us & vs & Hps & Hqs & ->)].
    + exists [], []. repeat split; constructor.
    + exists (a :: us), (b :: vs). repeat split; now constructor.
  - intros (us & vs & Hp & Hq & ->). revert vs Hq.
    induction Hp as [|x a xs us Hxa _ IH]; intros vs Hq.
    + inversion Hq. constructor.
    + inversion Hq as [|? b ? vs' Hxb Hvs]; subst.
      constructor; [now exists a, b | now apply IH].
Qed.

Lemma broadcast2_same_length (op : num → num → num) (u v : list num) :
  length u = length v → broadcast2 op u v = Ok (zip_with op u v).
Proof. intros E. unfold broadcast2. now rewrite E, Nat.eqb_refl. Qed.

(** The scalar value of a composition, a sum and a product, read backwards. *)
Lemma evaluate_compose_number_inv (f g : obj) (x y : num) :
  symbol_free f = true → symbol_free g = true →
  evaluate (Compose f g) (ONum x) = Ok (ONum y) →
  ∃ z, evaluate g (ONum x) = Ok (ONum z) ∧ evaluate f (ONum z) = Ok (ONum y).
Proof.
  intros Hf Hg H.
  destruct (symbol_free_node f Hf) as [Hfn Hfs].
  destruct (symbol_free_node g Hg) as [Hgn Hgs].
  change (evaluate (Compose f g) (ONum x))
    with (z ← call g (ONum x); call f z) in H.
  rewrite (call_number g x Hgn Hgs) in H.
  apply bind_result_Ok in H as (z & Hz & H).
  pose proof (symbol_free_number g x z Hg Hz) as Hk.
  destruct z as [z| | | | | | | | | | | | | |]; try discriminate.
  rewrite (call_number f z Hfn Hfs) in H. now exists z.
Qed.

Lemma evaluate_sum_number_inv (f g : obj) (x y : num) :
  symbol_free f = true → symbol_free g = true →
  evaluate (Sum f g) (ONum x) = Ok (ONum y) →
  ∃ a b, evaluate f (ONum x) = Ok (ONum a) ∧ evaluate g (ONum x) = Ok (ONum b)
         ∧ y = a ⊕ b.
Proof.
  intros Hf Hg H.
  destruct (symbol_free_node f Hf) as [Hfn Hfs].
  destruct (symbol_free_node g Hg) as [Hgn Hgs].
  change (evaluate (Sum f g) (ONum x))
    with (a ← call f (ONum x); b ← call g (ONum x); py_add a b) in H.
  rewrite (call_number f x Hfn Hfs), (call_number g x Hgn Hgs) in H.
  apply bind_result_Ok in H as (a & Ha & H).
  apply bind_result_Ok in H as (b & Hb & H).
  pose proof (symbol_free_number f x a Hf Ha) as Hka.
  pose proof (symbol_free_number g x b Hg Hb) as Hkb.
  destruct a as [a| | | | | | | | | | | | | |]; try discriminate.
  destruct b as [b| | | | | | | | | | | | | |]; try discriminate.
  exists a, b. repeat split; [exact Ha | exact Hb |]. simpl in H. congruence.
Qed.

Lemma evaluate_product_number_inv (f g : obj) (x y : num) :
  symbol_free f = true → symbol_free g = true →
  evaluate (Product f g) (ONum x) = Ok (ONum y) →
  ∃ a b, evaluate f (ONum x) = Ok (ONum a) ∧ evaluate g (ONum x) = Ok (ONum b)
         ∧ y = a ⊗ b.
Proof.
  intros Hf Hg H.
  destruct (symbol_free_node f Hf) as [Hfn Hfs].
  destruct (symbol_free_node g Hg) as [Hgn Hgs].
  change (evaluate (Product f g) (ONum x))
    with (a ← call f (ONum x); b ← call g (ONum x); py_mul a b) in H.
  rewrite (call_number f x Hfn Hfs), (call_number g x Hgn Hgs) in H.
  apply bind_result_Ok in H as (a & Ha & H).
  apply bind_result_Ok in H as (b & Hb & H).
  pose proof (symbol_free_number f x a Hf Ha) as Hka.
  pose proof (symbol_free_number g x b Hg Hb) as Hkb.
  destruct a as [a| | | | | | | | | | | | | |]; try discriminate.
  destruct b as [b| | | | | | | | | | | | | |]; try discriminate.
  exists a, b. repeat split; [exact Ha | exact Hb |]. simpl in H. congruence.
Qed.

(** A numpy elementwise function at an array, against the same function at
    each entry. *)
Lemma elementwise_array (u : num → result num) (xs : list num) (r : obj) :
  fmap_result OArr (mapM_result u xs) = Ok r
  ↔ ∃ ys, r = OArr ys
          ∧ Forall2 (λ x y, fmap_result ONum (u x) = Ok (ONum y)) xs ys.
Proof.
  assert (E : ∀ x y, fmap_result ONum (u x) = Ok (ONum y) ↔ u x = Ok y).
  { intros x y. destruct (u x); simpl; split; congruence. }
  split.
  - intros H. apply fmap_result_Ok in H as (ys & H & ->).
    exists ys. split; [reflexivity|].
    apply mapM_result_Forall2 in H.
    eapply Forall2_impl; [exact H|]. intros x y. apply E.
  - intros (ys & -> & H).
    assert (H' : mapM_result u xs = Ok ys).
    { apply mapM_result_Forall2. eapply Forall2_impl; [exact H|].
      intros x y. apply E. }
    now rewrite H'.
Qed.

Lemma poly_eval_vector_Forall2 (coeff xs : list num) :
  Forall2 (λ x y, evaluate (Polynomial coeff) (ONum x) = Ok (ONum y))
          xs (poly_eval_vector coeff xs).
Proof.
  apply Forall2_same_length_lookup. split.
  - unfold poly_eval_vector, dot, vander. now rewrite !length_map.
  - intros i x y Hx Hy.
    rewrite (poly_eval_vector_lookup coeff xs i x Hx) in Hy.
    inversion Hy; subst. apply evaluate_polynomial_hsum.
Qed.

Lemma evaluate_array (f : obj) :
  symbol_free f = true →
  ∀ (xs : list num) (r : obj),
    evaluate f (OArr xs) = Ok r
    ↔ ∃ ys, r = OArr ys
            ∧ Forall2 (λ x y, evaluate f (ONum x) = Ok (ONum y)) xs ys.
Proof.
  induction f as [| | | | | coeff |f IHf g IHg|f IHf g IHg|f IHf g IHg|n| | | | |name];
    intros Hf xs r; try discriminate.
  - split.
    + intros H. inversion H; subst. eexists. split; [reflexivity|].
      apply poly_eval_vector_Forall2.
    + intros (ys & -> & H). simpl. do 2 f_equal.
      eapply Forall2_functional; [|apply poly_eval_vector_Forall2|exact H].
      intros x y y' H1 H2. congruence.
  - apply andb_prop in Hf as [Hf Hg].
    destruct (symbol_free_node f Hf) as [Hfn Hfs].
    destruct (symbol_free_node g Hg) as [Hgn Hgs].
    change (evaluate (Compose f g) (OArr xs))
      with (z ← call g (OArr xs); call f z).
    rewrite (call_array g xs Hgn Hgs). split.
    + intros H. apply bind_result_Ok in H as (z & Hz & H).
      apply (IHg Hg) in Hz as (zs & -> & Hzs).
      rewrite (call_array f zs Hfn Hfs) in H.
      apply (IHf Hf) in H as (ys & -> & Hys).
      exists ys. split; [reflexivity|].
      assert (Hc : Forall2 (λ x y, ∃ z, evaluate g (ONum x) = Ok (ONum z)
                                        ∧ evaluate f (ONum z) = Ok (ONum y)) xs ys)
        by (apply Forall2_compose; eauto).
      eapply Forall2_impl; [exact Hc|]. intros x y (z & Hz & Hy).
      now apply (evaluate_compose_numbers f g x y z).
    + intros (ys & -> & H).
      assert (Hc : Forall2 (λ x y, ∃ z, evaluate g (ONum x) = Ok (ONum z)
                                        ∧ evaluate f (ONum z) = Ok (ONum y)) xs ys).
      { eapply Forall2_impl; [exact H|]. intros x y.
        now apply evaluate_compose_number_inv. }
      apply Forall2_compose in Hc as (zs & Hzs & Hys).
      assert (Eg : evaluate g (OArr xs) = Ok (OArr zs))
        by (apply (IHg Hg); eauto).
      rewrite Eg. simpl. rewrite (call_array f zs Hfn Hfs).
      apply (IHf Hf). eauto.
  - apply andb_prop in Hf as [Hf Hg].
    destruct (symbol_free_node f Hf) as [Hfn Hfs].
    destruct (symbol_free_node g Hg) as [Hgn Hgs].
    change (evaluate (Sum f g) (OArr xs))
      with (a ← call f (OArr xs); b ← call g (OArr xs); py_add a b).
    rewrite (call_array f xs Hfn Hfs), (call_array g xs Hgn Hgs). split.
    + intros H. apply bind_result_Ok in H as (a & Ha & H).
      apply bind_result_Ok in H as (b & Hb & H).
      apply (IHf Hf) in Ha as (us & -> & Hus).
      apply (IHg Hg) in Hb as (vs & -> & Hvs).
      simpl in H. rewrite broadcast2_same_length in H
        by (rewrite <- (Forall2_length _ _ _ Hus); apply (Forall2_length _ _ _ Hvs)).
      inversion H; subst. eexists. split; [reflexivity|].
      assert (Hc : Forall2 (λ x y, ∃ a b, evaluate f (ONum x) = Ok (ONum a)
                                          ∧ evaluate g (ONum x) = Ok (ONum b)
                                          ∧ y = a ⊕ b) xs (zip_with nadd us vs))
        by (apply Forall2_pointwise; eauto).
      eapply Forall2_impl; [exact Hc|]. intros x y (a & b & Ha & Hb & ->).
      now apply evaluate_sum_numbers.
    + intros (ys & -> & H).
      assert (Hc : Forall2 (λ x y, ∃ a b, evaluate f (ONum x) = Ok (ONum a)
                                          ∧ evaluate g (ONum x) = Ok (ONum b)
                                          ∧ y = a ⊕ b) xs ys).
      { eapply Forall2_impl; [exact H|]. intros x y.
        now apply evaluate_sum_number_inv. }
      apply Forall2_pointwise in Hc as (us & vs & Hus & Hvs & ->).
      assert (Ef : evaluate f (OArr xs) = Ok (OArr us)) by (apply (IHf Hf); eauto).
      assert (Eg : evaluate g (OArr xs) = Ok (OArr vs)) by (apply (IHg Hg); eauto).
      rewrite Ef, Eg. simpl. rewrite broadcast2_same_length; [reflexivity|].
      rewrite <- (Forall2_length _ _ _ Hus). apply (Forall2_length _ _ _ Hvs).
  - apply andb_prop in Hf as [Hf Hg].
    destruct (symbol_free_node f Hf) as [Hfn Hfs].
    destruct (symbol_free_node g Hg) as [Hgn Hgs].
    change (evaluate (Product f g) (OArr xs))
      with (a ← call f (OArr xs); b ← call g (OArr xs); py_mul a b).
    rewrite (call_array f xs Hfn Hfs), (call_array g xs Hgn Hgs). split.
    + intros H. apply bind_result_Ok in H as (a & Ha & H).
      apply bind_result_Ok in H as (b & Hb & H).
      apply (IHf Hf) in Ha as (us & -> & Hus).
      apply (IHg Hg) in Hb as (vs & -> & Hvs).
      simpl in H. rewrite broadcast2_same_length in H
        by (rewrite <- (Forall2_length _ _ _ Hus); apply (Forall2_length _ _ _ Hvs)).
      inversion H; subst. eexists. split; [reflexivity|].
      assert (Hc : Forall2 (λ x y, ∃ a b, evaluate f (ONum x) = Ok (ONum a)
                                          ∧ evaluate g (ONum x) = Ok (ONum b)
                                          ∧ y = a ⊗ b) xs (zip_with nmul us vs))
        by (apply Forall2_pointwise; eauto).
      eapply Forall2_impl; [exact Hc|]. intros x y (a & b & Ha & Hb & ->).
      now apply evaluate_product_numbers.
    + intros (ys & -> & H).
      assert (Hc : Forall2 (λ x y, ∃ a b, evaluate f (ONum x) = Ok (ONum a)
                                          ∧ evaluate g (ONum x) = Ok (ONum b)
                                          ∧ y = a ⊗ b) xs ys).
      { eapply Forall2_impl; [exact H|]. intros x y.
        now apply evaluate_product_number_inv. }
      apply Forall2_pointwise in Hc as (us & vs & Hus & Hvs & ->).
      assert (Ef : evaluate f (OArr xs) = Ok (OArr us)) by (apply (IHf Hf); eauto).
      assert (Eg : evaluate g (OArr xs) = Ok (OArr vs)) by (apply (IHg Hg); eauto).
      rewrite Ef, Eg. simpl. rewrite broadcast2_same_length; [reflexivity|].
      rewrite <- (Forall2_length _ _ _ Hus). apply (Forall2_length _ _ _ Hvs).
  - apply (elementwise_array (λ v, npow v n)).
  - apply (elementwise_array nlog).
  - apply (elementwise_array nexp).
  - apply (elementwise_array nsin).
  - apply (elementwise_array ncos).
Qed.

End ArrayValues.

(** X21.  A numpy array goes through a whole expression tree entry by
    entry.  For every expression tree [f] without Symbolic nodes and every
    array [xs], in exact arithmetic: [f.evaluate(xs)] returns a result
    exactly when [f.evaluate(x)] returns a number for every entry [x] of
    [xs]; the result is then an array of the length of [xs] whose entries
    are those numbers, in order. *)
Theorem evaluate_array_elementwise `{L : NumericLaws} (f : obj) (xs : list num) (r : obj) :
  symbol_free f = true →
  evaluate f (OArr xs) = Ok r
  ↔ ∃ ys, r = OArr ys ∧ length ys = length xs
          ∧ Forall2 (λ x y, evaluate f (ONum x) = Ok (ONum y)) xs ys.
Proof.
  intros Hf. rewrite (evaluate_array f Hf xs r). split.
  - intros (ys & -> & H). exists ys. repeat split; [|exact H].
    symmetry. apply (Forall2_length _ _ _ H).
  - intros (ys & -> & _ & H). eauto.
Qed.

Lemma evaluate_array_elementwise_witness :
  evaluate (N := Fractions.numeric)
           (Sum (Fractions.poly [1; 0])
                (Compose (Power (N := Fractions.numeric) (Fractions.from_Z 2))
                         (Fractions.poly [1; 1])))
           (OArr (N := Fractions.numeric) (map Fractions.from_Z [1; 2]))
  = Ok (OArr (N := Fractions.numeric) (map Fractions.from_Z [5; 11])).
Proof.
  apply (evaluate_array_elementwise (L := FractionsLaws.laws)
           (Sum (Fractions.poly [1; 0])
                (Compose (Power (N := Fractions.numeric) (Fractions.from_Z 2))
                         (Fractions.poly [1; 1])))
           (map Fractions.from_Z [1; 2])
           (OArr (N := Fractions.numeric) (map Fractions.from_Z [5; 11])));
    [reflexivity|].
  exists (map Fractions.from_Z [5; 11]). split; [reflexivity|].
  split; [reflexivity|].
  repeat constructor.
Defined.

(** ** Rendering with an indeterminate *)

Section Templates.
Context `{N : Numeric}.

Ltac template_steps :=
  repeat first [ apply template_nil | apply template_field | apply template_open
               | apply template_close | apply template_char; [reflexivity|] ].

Lemma format_go_char (st : numbering) (c : ascii) (t arg : string) :
  is_brace c = false →
  format_go st (String c t) arg = (r ← format_go st t arg; Ok (String c r)).
Proof.
  intros H.
  destruct c as [[] [] [] [] [] [] [] []];
    first [reflexivity | discriminate H].
Qed.

Lemma template_format (t arg : string) :
  template t → ∀ st, st ≠ Automatic → ∃ r, format_go st t arg = Ok r.
Proof.
  induction 1 as [|c t Hc _ IH|t _ IH|t _ IH|t _ IH]; intros st Hst.
  - now exists "".
  - rewrite (format_go_char st c t arg Hc).
    destruct (IH st Hst) as (r & ->). now eexists.
  - destruct (IH Manual) as (r & Hr); [discriminate|].
    change (format_go st (String "{" (String "0" (String "}" t))) arg)
      with (match st with
            | Automatic => Err (ValueError "cannot switch from automatic field numbering to manual field specification")
            | _ => r ← format_go Manual t arg; Ok (arg +:+ r)
            end).
    destruct st; [|contradiction|]; rewrite Hr; now eexists.
  - destruct (IH st Hst) as (r & Hr).
    change (format_go st (String "{" (String "{" t)) arg)
      with (r ← format_go st t arg; Ok (String "{" r)).
    rewrite Hr. now eexists.
  - destruct (IH st Hst) as (r & Hr).
    change (format_go st (String "}" (String "}" t)) arg)
      with (r ← format_go st t arg; Ok (String "}" r)).
    rewrite Hr. now eexists.
Qed.

Lemma template_app (a b : string) : template a → template b → template (a +:+ b).
Proof.
  intros Ha Hb. induction Ha as [|c t Hc _ IH|t _ IH|t _ IH|t _ IH].
  - exact Hb.
  - now apply (template_char c (t +:+ b)).
  - now apply (template_field (t +:+ b)).
  - now apply (template_open (t +:+ b)).
  - now apply (template_close (t +:+ b)).
Qed.

Lemma brace_free_template (s : string) : brace_free s = true → template s.
Proof.
  induction s as [|c s IH]; intros H; [constructor|].
  simpl in H. apply andb_prop in H as [Hc Hs].
  apply template_char; [now apply negb_true_iff | now apply IH].
Qed.

Lemma brace_free_app (a b : string) :
  brace_free (a +:+ b) = brace_free a && brace_free b.
Proof.
  induction a as [|c a IH]; [reflexivity|].
  change (negb (is_brace c) && brace_free (a +:+ b)
          = negb (is_brace c) && brace_free a && brace_free b).
  now rewrite IH, andb_assoc.
Qed.

Lemma str_app_cons_inv (c c' : ascii) (t a b : string) :
  String c t = String c' a +:+ b → c' = c ∧ t = a +:+ b.
Proof. intros E. change (String c t = String c' (a +:+ b)) in E. now inversion E. Qed.

(** Cutting a brace-free end off a template leaves a template. *)
Lemma template_app_inv (a b : string) :
  brace_free b = true → template (a +:+ b) → template a.
Proof.
  intros Hb H. remember (a +:+ b) as s eqn:E. revert a E.
  induction H as [|c t Hc _ IH|t _ IH|t _ IH|t _ IH]; intros a E.
  - destruct a; [constructor | discriminate E].
  - destruct a as [|c' a]; [constructor|].
    apply str_app_cons_inv in E as [-> E].
    apply template_char; [exact Hc | now apply IH].
  - destruct a as [|c1 a]; [change ("" +:+ b) with b in E; rewrite <- E in Hb; discriminate Hb|].
    apply str_app_cons_inv in E as [-> E].
    destruct a as [|c2 a]; [change ("" +:+ b) with b in E; rewrite <- E in Hb; discriminate Hb|].
    apply str_app_cons_inv in E as [-> E].
    destruct a as [|c3 a]; [change ("" +:+ b) with b in E; rewrite <- E in Hb; discriminate Hb|].
    apply str_app_cons_inv in E as [-> E].
    apply template_field. now apply IH.
  - destruct a as [|c1 a]; [change ("" +:+ b) with b in E; rewrite <- E in Hb; discriminate Hb|].
    apply str_app_cons_inv in E as [-> E].
    destruct a as [|c2 a]; [change ("" +:+ b) with b in E; rewrite <- E in Hb; discriminate Hb|].
    apply str_app_cons_inv in E as [-> E].
    apply template_open. now apply IH.
  - destruct a as [|c1 a]; [change ("" +:+ b) with b in E; rewrite <- E in Hb; discriminate Hb|].
    apply str_app_cons_inv in E as [-> E].
    destruct a as [|c2 a]; [change ("" +:+ b) with b in E; rewrite <- E in Hb; discriminate Hb|].
    apply str_app_cons_inv in E as [-> E].
    apply template_close. now apply IH.
Qed.

Lemma substring_all (s : string) : substring 0 (String.length s) s = s.
Proof. induction s as [|c s IH]; simpl; [reflexivity | now rewrite IH]. Qed.

Lemma substring_split (s : string) (n : nat) :
  (n ≤ String.length s)%nat →
  substring 0 n s +:+ substring n (String.length s - n) s = s.
Proof.
  revert n. induction s as [|c s IH]; intros n Hn.
  - destruct n; reflexivity.
  - destruct n as [|n].
    + change (substring 0 (String.length (String c s)) (String c s) = String c s).
      apply substring_all.
    + simpl in Hn.
      change (String c (substring 0 n s +:+ substring n (String.length s - n) s)
              = String c s).
      rewrite IH by lia. reflexivity.
Qed.

(** [s == s[:-3] + s[-3:]] when [s[-3:]] has three characters. *)
Lemma drop_last3_last3 (s : string) :
  String.length (last3 s) = 3%nat → drop_last3 s +:+ last3 s = s.
Proof.
  intros H. unfold drop_last3, last3 in *.
  destruct (le_lt_dec 3 (String.length s)) as [Hl|Hl].
  - rewrite <- (substring_split s (String.length s - 3)) at 5 by lia.
    do 2 f_equal. lia.
  - exfalso. replace (String.length s - 3)%nat with 0%nat in H by lia.
    destruct s as [|c1 [|c2 [|c3 s]]]; simpl in *; try discriminate; lia.
Qed.

Lemma pretty_N_char_plain (x : BinNums.N) : is_brace (pretty_N_char x) = false.
Proof. unfold pretty_N_char. repeat case_match; reflexivity. Qed.

Lemma pretty_N_go_plain (x : BinNums.N) (s : string) :
  brace_free s = true → brace_free (pretty_N_go x s) = true.
Proof.
  revert s. induction (N.lt_wf_0 x) as [x _ IH]; intros s Hs.
  destruct (N.eq_dec x 0%N) as [->|Hx].
  - now rewrite pretty_N_go_0.
  - rewrite pretty_N_go_step by lia. apply IH.
    + apply N.div_lt; lia.
    + simpl. now rewrite pretty_N_char_plain, Hs.
Qed.

Lemma pretty_N_plain (x : BinNums.N) : brace_free (pretty x) = true.
Proof.
  unfold pretty, pretty_N. destruct (decide (x = 0%N)); [reflexivity|].
  now apply pretty_N_go_plain.
Qed.

Lemma pretty_Z_plain (z : Z) : brace_free (pretty z) = true.
Proof.
  destruct z as [|p|p]; [reflexivity| |].
  - apply (pretty_N_plain (Npos p)).
  - change (brace_free ("-" +:+ pretty (Npos p)) = true).
    rewrite brace_free_app, pretty_N_plain. reflexivity.
Qed.

Hypothesis show_num_plain : ∀ c : num, brace_free (show_num c) = true.

Lemma poly_str_step_template (deg : Z) (s : string) (ic : nat * num) :
  template s → template (poly_str_step deg s ic).
Proof.
  intros Hs. unfold poly_str_step.
  assert (Hc : template (show_num ic.2))
    by apply brace_free_template, show_num_plain.
  assert (Hd : template (pretty (deg - Z.of_nat ic.1)))
    by apply brace_free_template, pretty_Z_plain.
  assert (Hp : template " + ") by now apply brace_free_template.
  assert (Hx : template "({0})^").
  { apply template_char; [reflexivity|]. apply template_field.
    now apply brace_free_template. }
  assert (Hl : template "{0} + ") by now apply template_field.
  assert (Hk : template "({0}) + ").
  { apply template_char; [reflexivity|]. apply template_field.
    now apply brace_free_template. }
  repeat case_match; repeat apply template_app; assumption.
Qed.

Lemma poly_str_template (coeff : list num) : template (poly_str coeff).
Proof.
  unfold poly_str.
  assert (H : ∀ l s, template s →
                template (fold_left (poly_str_step (degree coeff)) l s)).
  { induction l as [|ic l IH]; intros s Hs; [exact Hs|].
    simpl. apply IH. now apply poly_str_step_template. }
  specialize (H (enumerate coeff) "" template_nil).
  set (s := fold_left _ _ _) in *.
  destruct (String.eqb (last3 s) " + ") eqn:E; [|exact H].
  apply String.eqb_eq in E.
  apply (template_app_inv _ " + "); [reflexivity|].
  rewrite <- E, drop_last3_last3; [exact H | now rewrite E].
Qed.

Lemma py_str_template (f : obj) : plain_names f = true → template (py_str f).
Proof.
  induction f as [| | | | | coeff |f IHf g IHg|f IHf g IHg|f IHf g IHg|n| | | | |name];
    intros Hf; try discriminate.
  - apply poly_str_template.
  - apply andb_prop in Hf as [Hf Hg]. cbn [py_str].
    repeat apply template_app; auto; now apply brace_free_template.
  - apply andb_prop in Hf as [Hf Hg]. cbn [py_str].
    repeat apply template_app; auto; now apply brace_free_template.
  - apply andb_prop in Hf as [Hf Hg]. cbn [py_str].
    repeat apply template_app; auto; now apply brace_free_template.
  - cbn [py_str]. apply (template_field (" ^ " +:+ show_num n)).
    apply template_app; apply brace_free_template;
      [reflexivity | apply show_num_plain].
  - cbn [py_str]. template_steps.
  - cbn [py_str]. template_steps.
  - cbn [py_str]. template_steps.
  - cbn [py_str]. template_steps.
  - cbn [py_str]. apply template_app; [now apply brace_free_template|].
    template_steps.
Qed.

Lemma call_name (f : obj) (x : string) :
  plain_names f = true → ∃ s, call f (OStr x) = Ok (OStr s).
Proof.
  intros Hf.
  destruct (template_format (py_str f) x (py_str_template f Hf) Unset)
    as (r & Hr); [discriminate|].
  assert (E : is_symbolic f = false →
              call f (OStr x) = fmap_result OStr (format (py_str f) x)).
  { destruct f; simpl in *; intros; congruence. }
  destruct f; try discriminate;
    try (rewrite E by reflexivity; unfold format; rewrite Hr; now eexists).
  now eexists.
Qed.

End Templates.

(** Python prints an integer or a fraction without braces. *)
Lemma fractions_show_plain (q : Qc) : brace_free (Fractions.show q) = true.
Proof.
  unfold Fractions.show. destruct (Fractions.is_integral q).
  - apply pretty_Z_plain.
  - rewrite !brace_free_app, !pretty_Z_plain. reflexivity.
Qed.

(** X22.  Rendering with an indeterminate never raises.  When numbers
    print without braces, for every expression tree [f] whose Symbolic names
    hold no brace and every string [x] (braces or not), [f(x)] returns a
    string: whatever [__str__] builds for the tree, with its [{0}], [{{] and
    [}}], is a format string that [format(x)] accepts. *)
Theorem call_with_name_never_raises `{N : Numeric} (f : obj) (x : string) :
  (∀ c : num, brace_free (show_num c) = true) →
  plain_names f = true →
  ∃ s, call f (OStr x) = Ok (OStr s).
Proof. intros Hshow Hf. now apply call_name. Qed.

Lemma call_with_name_never_raises_witness :
  ∃ s, call (Sum (Compose Sin (Fractions.poly [1; 0; -4])) (Symbolic "g"))
            (OStr "{t}")
       = Ok (OStr s).
Proof.
  apply (call_with_name_never_raises (N := Fractions.numeric)
           (Sum (Compose Sin (Fractions.poly [1; 0; -4])) (Symbolic "g"))
           "{t}" fractions_show_plain).
  reflexivity.
Defined.
